(** * Vose's alias method: the [Sampler] class of [vose/sampler.pyx]

    A shallow embedding of the Cython class [Sampler] and the statements of
    its specification that are settled on it.

    Conventions of the embedding.

    - [np.float_t] values are interpreted exactly, as rationals [Q]: the
      statements below concern the table construction under
      infinite-precision arithmetic.
    - [coin_toss] takes a C [float] and compares in [float]: its arithmetic
      is single precision, with rounding to nearest, ties to even.
    - C [int] values are integers [Z]; indices produced by [range(n)] and
      stored in the worklists and in [alias] are naturals.
    - The caller's weight buffer lives in a store of buffers; a memoryview is
      a location of that store, so that [weights.copy()] and the in-place
      updates of the construction are visible as store updates.
    - The files are compiled with [boundscheck=False]: an access outside a
      buffer is undefined behaviour, the outcome [Undefined]. *)

From Stdlib Require Import ZArith QArith Qround Qpower Qabs Lia Lqa.
From stdpp Require Import base option list gmap.

(** ** Outcomes of a call *)

(** Python exceptions a call can end with.  The specification's
    [InvalidInput] and [OutOfRange] are read as Python's [ValueError] and
    [IndexError]. *)
Inductive exn : Set :=
| ValueError
| IndexError
| OverflowError.

Definition InvalidInput : exn := ValueError.
Definition OutOfRange : exn := IndexError.

Inductive outcome (A : Type) : Type :=
| Ok (a : A)             (* the call returns [a] *)
| Raise (e : exn)        (* the call raises [e] *)
| Undefined              (* an unchecked access left its buffer *)
| Diverges.              (* the loop ran out of the fuel it was given *)

Arguments Ok {A} a.
Arguments Raise {A} e.
Arguments Undefined {A}.
Arguments Diverges {A}.

#[global] Instance outcome_ret : MRet outcome := λ A a, Ok a.
#[global] Instance outcome_bind : MBind outcome := λ A B f m,
  match m with
  | Ok a => f a
  | Raise e => Raise e
  | Undefined => Undefined
  | Diverges => Diverges
  end.

#[global] Instance outcome_fmap : FMap outcome := λ A B f m,
  match m with
  | Ok a => Ok (f a)
  | Raise e => Raise e
  | Undefined => Undefined
  | Diverges => Diverges
  end.

(** ** The engine: [std::minstd_rand]

    The engine comes from the C++ standard library through the wrapper
    [random_wrapper]; the model is the standard's definition of
    [minstd_rand]: [linear_congruential_engine<uint_fast32_t, 48271, 0,
    2147483647>]. *)
Module minstd_rand.

Definition modulus : Z := 2147483647.
Definition multiplier : Z := 48271.

Definition min : Z := 1.
Definition max : Z := modulus - 1.

(** [minstd_rand(s)]: the state is [s mod m], or 1 when that is 0. *)
Definition seed (s : Z) : Z :=
  let x := (s mod modulus)%Z in
  if (x =? 0)%Z then 1%Z else x.

(** [operator()]: the next state, which is also the value drawn. *)
Definition next (st : Z) : Z := ((multiplier * st) mod modulus)%Z.

End minstd_rand.

(** ** C integer conversions *)

Definition INT_MAX : Z := 2147483647.

(** Conversion of an integer to the 32-bit [int]. *)
Definition to_int (z : Z) : Z := ((z + 2 ^ 31) mod 2 ^ 32 - 2 ^ 31)%Z.

(** Conversion to the unsigned result type of the engine, [bits] wide. *)
Definition to_unsigned (bits : Z) (z : Z) : Z := (z mod 2 ^ bits)%Z.

(** Conversion of a Python integer to [int], at the call of a [cdef]
    function with an [int] parameter: it raises when the value does not
    fit. *)
Definition as_int (z : Z) : outcome Z :=
  if ((z <? - 2 ^ 31) || (INT_MAX <? z))%Z then Raise OverflowError else Ok z.

(** Conversion of a Python integer to the unsigned result type of the
    engine: it raises for a negative value and for one that does not fit. *)
Definition as_result_type (bits : Z) (z : Z) : outcome Z :=
  if ((z <? 0) || (2 ^ bits <=? z))%Z then Raise OverflowError else Ok z.

(** ** Single precision

    The C type [float], IEEE 754 binary32: 24 significant bits, least
    exponent -149, overflow to an infinity from [2^128].  A finite [float]
    is modelled by the rational it denotes.  Rounding is to the nearest
    representable value, ties to the even significand. *)

(** The integer nearest to [x], ties to even. *)
Definition rne (x : Q) : Z :=
  let f := Qfloor x in
  match (x - inject_Z f ?= 1 # 2)%Q with
  | Lt => f
  | Gt => (f + 1)%Z
  | Eq => if Z.even f then f else (f + 1)%Z
  end.

(** For [x > 0], the exponent [k] with [2^k <= x < 2^(k+1)]. *)
Definition ilog2 (x : Q) : Z :=
  let k := (Z.log2 (Qnum x) - Z.log2 (Zpos (Qden x)))%Z in
  if Qle_bool (2 ^ k) x then k else (k - 1)%Z.

(** The exponent of the unit in the last place of the [float]s around
    [x]. *)
Definition ulp_exponent (x : Q) : Z := Z.max (ilog2 (Qabs x) - 23) (-149).

(** [x] rounded to 24 significant bits. *)
Definition round32 (x : Q) : Q :=
  let e := ulp_exponent x in
  (inject_Z (rne (x / 2 ^ e)) * 2 ^ e)%Q.

Inductive f32 : Type :=
| Finite (q : Q)
| Infinity (negative : bool)
| NaN.

Definition negative (q : Q) : bool := negb (Qle_bool 0 q).

(** Conversion of a real to [float]. *)
Definition f32_of_Q (x : Q) : f32 :=
  let r := round32 x in
  if Qle_bool (2 ^ 128) (Qabs r) then Infinity (negative r) else Finite r.

(** Conversion of an integer to [float]. *)
Definition f32_of_Z (z : Z) : f32 := f32_of_Q (inject_Z z).

(** The product of two [float]s. *)
Definition f32_mul (a b : f32) : f32 :=
  match a, b with
  | Finite x, Finite y => f32_of_Q (x * y)
  | Finite x, Infinity s | Infinity s, Finite x =>
      if Qeq_bool x 0 then NaN else Infinity (xorb s (negative x))
  | Infinity s, Infinity t => Infinity (xorb s t)
  | _, _ => NaN
  end.

(** [a < b] on [float]s: false when either is not a number. *)
Definition f32_lt (a b : f32) : bool :=
  match a, b with
  | Finite x, Finite y => negb (Qle_bool y x)
  | Finite _, Infinity s => negb s
  | Infinity s, Finite _ => s
  | Infinity s, Infinity t => s && negb t
  | _, _ => false
  end.

(** Signs and order of [float]s, for the statements below. *)
Definition f32_nonneg (v : f32) : Prop :=
  match v with
  | Finite q => (0 <= q)%Q
  | Infinity s => s = false
  | NaN => False
  end.

Definition f32_not_positive (v : f32) : Prop :=
  match v with
  | Finite q => (q <= 0)%Q
  | Infinity s => s = true
  | NaN => True
  end.

Definition f32_le (a b : f32) : Prop :=
  match a, b with
  | Finite x, Finite y => (x <= y)%Q
  | Finite _, Infinity s => s = false
  | Infinity s, Finite _ => s = true
  | Infinity s, Infinity t => s = true ∨ t = false
  | _, _ => False
  end.

(** ** Buffers and the store *)

Abbreviation loc := positive.
Abbreviation store := (gmap positive (list Q)).

(** Unchecked read [buf[i]] of a buffer held by the Sampler. *)
Definition read {A} (l : list A) (i : nat) : outcome A :=
  match l !! i with
  | Some x => Ok x
  | None => Undefined
  end.

(** Unchecked write [buf[i] = x]. *)
Definition write {A} (l : list A) (i : nat) (x : A) : outcome (list A) :=
  if decide (i < length l) then Ok (<[i := x]> l) else Undefined.

(** Read through a memoryview: [weights[i]] where [weights] is the view at
    location [w]. *)
Definition load (h : store) (w : loc) (i : nat) : outcome Q :=
  match h !! w with
  | Some b => read b i
  | None => Undefined
  end.

(** Write through a memoryview: [weights[i] = x]. *)
Definition store_at (h : store) (w : loc) (i : nat) (x : Q) : outcome store :=
  match h !! w with
  | Some b => b' ← write b i x; Ok (<[w := b']> h)
  | None => Undefined
  end.

(** A new buffer holding [b]. *)
Definition allocate (h : store) (b : list Q) : store * loc :=
  let l := fresh (dom h) in (<[l := b]> h, l).

(** [weights.copy()]: a new buffer with the same contents.  The copy of a
    memoryview allocates an array of its shape, and the array refuses an
    axis of length 0 with a [ValueError]. *)
Definition copy_buffer (h : store) (b : list Q) : outcome (store * loc) :=
  match b with
  | [] => Raise ValueError
  | _ :: _ => Ok (allocate h b)
  end.

(** ** Worklists

    A [deque[int]] is the list of its elements read from the back to the
    front: [back] is the head of the list, [pop_back] removes it and
    [push_front] adds at the far end. *)
Definition deque := list nat.

Definition push_front (i : nat) (d : deque) : deque := d ++ [i].

(** ** Table construction *)

(** The state of the construction: the store (which holds the weights being
    rewritten), the two tables and the two worklists. *)
Record tstate : Type := TState {
  t_store : store;
  t_alias : list nat;
  t_proba : list Q;
  small : deque;
  large : deque
}.

(** [avg = 1. / n].  For [n = 0] the C division gives an infinity and [Q]
    gives 0; the value is not used then, since no loop body runs. *)
Definition average (n : nat) : Q := (1 / inject_Z (Z.of_nat n))%Q.

(** [for i in range(n)]: sort the indices into the two worklists. *)
Fixpoint populate (h : store) (w : loc) (avg : Q) (idx : list nat)
    (sm lg : deque) : outcome (deque * deque) :=
  match idx with
  | [] => Ok (sm, lg)
  | i :: rest =>
      wi ← load h w i;
      if Qle_bool avg wi
      then populate h w avg rest sm (push_front i lg)
      else populate h w avg rest (push_front i sm) lg
  end.

(** The body of the pairing loop, for [less] and [more] already popped. *)
Definition pair_body (w : loc) (n : nat) (avg : Q) (less more : nat)
    (sm lg : deque) (st : tstate) : outcome tstate :=
  wless ← load (t_store st) w less;
  proba' ← write (t_proba st) less (wless * inject_Z (Z.of_nat n))%Q;
  alias' ← write (t_alias st) less more;
  wmore ← load (t_store st) w more;
  wless' ← load (t_store st) w less;
  h' ← store_at (t_store st) w more (wmore + wless' - avg)%Q;
  wnew ← load h' w more;
  if Qle_bool avg wnew
  then Ok (TState h' alias' proba' sm (push_front more lg))
  else Ok (TState h' alias' proba' (push_front more sm) lg).

(** [while not small.empty() and not large.empty()]. *)
Fixpoint pair_loop (fuel : nat) (w : loc) (n : nat) (avg : Q)
    (st : tstate) : outcome tstate :=
  match small st, large st with
  | less :: sm, more :: lg =>
      match fuel with
      | O => Diverges
      | S fuel' =>
          st' ← pair_body w n avg less more sm lg st;
          pair_loop fuel' w n avg st'
      end
  | _, _ => Ok st
  end.

(** [while not d.empty(): i = d.back(); d.pop_back(); proba[i] = 1.] *)
Fixpoint drain (d : deque) (proba : list Q) : outcome (list Q) :=
  match d with
  | [] => Ok proba
  | i :: rest => proba' ← write proba i 1%Q; drain rest proba'
  end.

(** ** The Sampler *)

Record Sampler : Type := MkSampler {
  n : Z;
  generator : Z;
  maxi : Z;
  alias : list nat;
  proba : list Q
}.

(** [cdef int n = weights.size]: the size is a Python integer, and its
    conversion to [int] raises when it does not fit. *)
Definition size_as_int (b : list Q) : outcome nat :=
  if (INT_MAX <? Z.of_nat (length b))%Z then Raise OverflowError
  else Ok (length b).

(** The construction proper, lines 45 to 101 of [__init__]: the size [n] and
    the tables built from the view [w], with the store they leave. *)
Definition build_tables (h : store) (w : loc) : outcome (nat * tstate) :=
  b ← (match h !! w with Some b => Ok b | None => Undefined end);
  sz ← size_as_int b;
  let avg := average sz in
  '(sm, lg) ← populate h w avg (seq 0 sz) [] [];
  st ← pair_loop sz w sz avg
         (TState h (replicate sz 0) (replicate sz 0%Q) sm lg);
  p1 ← drain (small st) (t_proba st);
  p2 ← drain (large st) p1;
  Ok (sz, TState (t_store st) (t_alias st) p2 [] []).

(** [Sampler.__init__(weights, copy, seed)].  [bits] is the width of the
    engine's result type, to which a seed is converted; [entropy] is the
    value that [random_device] gives, used when no seed is supplied.  The
    result is the store after the call and the new Sampler. *)
Definition init (bits : Z) (h : store) (weights : loc) (copy : bool)
    (seed : option Z) (entropy : Z) : outcome (store * Sampler) :=
  sd ← (match seed with
        | None => Ok entropy
        | Some s => as_result_type bits s
        end);
  let g := minstd_rand.seed sd in
  let mx := minstd_rand.max in
  '(h1, w) ← (if copy
              then match h !! weights with
                   | Some b => copy_buffer h b
                   | None => Undefined
                   end
              else Ok (h, weights));
  '(sz, st) ← build_tables h1 w;
  Ok (t_store st, MkSampler (Z.of_nat sz) g mx (t_alias st) (t_proba st)).

(** ** Sampling

    [bits] is the width of the engine's result type [uint_fast32_t], which
    the C++ standard leaves to the platform (at least 32). *)
Section sampling.

Variable bits : Z.

(** [self.generator()]: advance the engine and return the value drawn. *)
Definition draw (s : Sampler) : Z * Sampler :=
  let d := minstd_rand.next (generator s) in
  (d, MkSampler (n s) d (maxi s) (alias s) (proba s)).

(** [draw < maxi * p], for a draw already made.  [p] is a [float]
    parameter: the value passed is converted to single precision at the
    call, [maxi] is converted for the product, the product is rounded, and
    the draw is converted for the comparison. *)
Definition coin_of (mx d : Z) (p : Q) : bool :=
  f32_lt (f32_of_Z d) (f32_mul (f32_of_Z mx) (f32_of_Q p)).

(** [draw * k / (maxi + 1)], for a draw already made: the product and the
    quotient are taken in the unsigned result type, [maxi + 1] in [int],
    and the value returned is converted to [int].  With [maxi] the maximum
    of the engine, [maxi + 1] is 2147483647: it neither leaves [int] nor is
    0, so the division is defined ([cdivision=True] checks nothing). *)
Definition die_of (mx d k : Z) : Z :=
  to_int (to_unsigned bits (d * to_unsigned bits k)
          / to_unsigned bits (to_int (mx + 1)))%Z.

Definition coin_toss (s : Sampler) (p : Q) : bool * Sampler :=
  let '(d, s') := draw s in (coin_of (maxi s) d p, s').

Definition fair_die (s : Sampler) (k : Z) : Z * Sampler :=
  let '(d, s') := draw s in (die_of (maxi s) d k, s').

(** Unchecked read at a C [int] index ([wraparound=False]). *)
Definition read_int {A} (l : list A) (i : Z) : outcome A :=
  if (i <? 0)%Z then Undefined else read l (Z.to_nat i).

Definition sample_1 (s : Sampler) : outcome (Z * Sampler) :=
  let '(col, s1) := fair_die s (n s) in
  p ← read_int (proba s1) col;
  let '(heads, s2) := coin_toss s1 p in
  if heads : bool then Ok (col, s2)
  else a ← read_int (alias s2) col; Ok (Z.of_nat a, s2).

(** [np.zeros(k, ...)] raises [ValueError] for a negative [k]. *)
Definition np_zeros {A} (k : Z) (x : A) : outcome (list A) :=
  if (k <? 0)%Z then Raise ValueError else Ok (replicate (Z.to_nat k) x).

(** [for i in range(k): samples[i] = self.sample_1()], from index [i]. *)
Fixpoint sample_k_loop (k i : nat) (samples : list Z) (s : Sampler)
    : outcome (list Z * Sampler) :=
  match k with
  | O => Ok (samples, s)
  | S k' =>
      '(x, s') ← sample_1 s;
      samples' ← write samples i x;
      sample_k_loop k' (S i) samples' s'
  end.

Definition sample_k (s : Sampler) (k : Z) : outcome (list Z * Sampler) :=
  samples ← np_zeros k 0%Z;
  sample_k_loop (Z.to_nat k) 0 samples s.

(** [for i in range(k): out[i] = values[self.sample_1()]]. *)
Fixpoint sample_k_from_loop (k i : nat) (out : list Q) (values : list Q)
    (s : Sampler) : outcome (list Q * Sampler) :=
  match k with
  | O => Ok (out, s)
  | S k' =>
      '(x, s') ← sample_1 s;
      v ← read_int values x;
      out' ← write out i v;
      sample_k_from_loop k' (S i) out' values s'
  end.

Definition sample_k_from (s : Sampler) (k : Z) (values : list Q)
    : outcome (list Q * Sampler) :=
  out ← np_zeros k 0%Q;
  sample_k_from_loop (Z.to_nat k) 0 out values s.

(** What [sample] hands back to Python. *)
Inductive pyvalue : Type :=
| PyInt (z : Z)
| PyFloat (q : Q)
| IntArray (l : list Z)
| FloatArray (l : list Q).

(** [values[i]] on the Python object [values], a numpy array: checked, with
    Python's reading of a negative index. *)
Definition py_getitem (values : list Q) (i : Z) : outcome Q :=
  let j := (if (i <? 0)%Z then i + Z.of_nat (length values) else i)%Z in
  if (j <? 0)%Z then Raise IndexError
  else match values !! Z.to_nat j with
       | Some v => Ok v
       | None => Raise IndexError
       end.

(** [Sampler.sample(k, values)].  [k] is a Python integer, converted to
    [int] at the calls of [sample_k] and [sample_k_from]. *)
Definition sample (s : Sampler) (k : Z) (values : option (list Q))
    : outcome (pyvalue * Sampler) :=
  match values with
  | None =>
      if (k =? 1)%Z
      then '(x, s') ← sample_1 s; Ok (PyInt x, s')
      else k' ← as_int k;
           '(xs, s') ← sample_k s k'; Ok (IntArray xs, s')
  | Some vs =>
      if (k =? 1)%Z
      then '(x, s') ← sample_1 s; v ← py_getitem vs x; Ok (PyFloat v, s')
      else k' ← as_int k;
           '(xs, s') ← sample_k_from s k' vs; Ok (FloatArray xs, s')
  end.

End sampling.

(** ** Running the model: a store with one buffer *)

Definition caller : loc := 1%positive.

Definition one_buffer (b : list Q) : store := {[ caller := b ]}.

(** The Sampler built from the weights [b], seeded with [sd], with the
    default [copy=True], where the engine's result type has [bits] bits. *)
Definition Sampler_of (bits : Z) (b : list Q) (sd : Z) : outcome Sampler :=
  snd <$> init bits (one_buffer b) caller true (Some sd) 0.

(** ** The distribution a table induces *)

(** The sum, over the columns [j] with [alias[j] = k], of
    [(1 - probability[j]) / n]. *)
Fixpoint tails_mass (nq : Q) (al : list nat) (pr : list Q) (k : nat) : Q :=
  match al, pr with
  | a :: al', p :: pr' =>
      if decide (a = k)
      then ((1 - p) / nq + tails_mass nq al' pr' k)%Q
      else tails_mass nq al' pr' k
  | _, _ => 0%Q
  end.

(** [P(draw = k) = probability[k]/n + Σ_{j: alias[j]=k} (1-probability[j])/n],
    the formula of the data model. *)
Definition draw_probability (s : Sampler) (k : nat) : Q :=
  let nq := inject_Z (n s) in
  (default 0 (proba s !! k) / nq + tails_mass nq (alias s) (proba s) k)%Q.

(** [W = Σw]. *)
Definition total (b : list Q) : Q := foldr Qplus 0%Q b.

(** ** The construction as the specification words it

    The state of the specification's algorithm: the weights, the two tables
    and the two worklists.  A worklist is a collection: which of its indices
    a pop takes, and where a push puts one, is left open. *)
Record spec_state : Type := SpecState {
  weight : list Q;
  probability : list Q;
  spec_alias : list nat;
  spec_small : list nat;
  spec_large : list nat
}.

(** Two arrays of reals with equal entries (equal as rationals). *)
Definition same_reals (l1 l2 : list Q) : Prop := Forall2 Qeq l1 l2.

(** Re-classification of [more] by its updated weight [x]: into [small] when
    [x < avg], into [large] when [x >= avg]. *)
Definition reclassified (avg x : Q) (more : nat) (sm lg sm' lg' : list nat)
    : Prop :=
  ((x < avg)%Q ∧ sm' ≡ₚ more :: sm ∧ lg' ≡ₚ lg) ∨
  ((avg <= x)%Q ∧ sm' ≡ₚ sm ∧ lg' ≡ₚ more :: lg).

(** One round of step 3. *)
Inductive spec_step (sz : nat) : spec_state → spec_state → Prop :=
| spec_pair st st' less more sm lg wless wmore :
    spec_small st ≡ₚ less :: sm →
    spec_large st ≡ₚ more :: lg →
    weight st !! less = Some wless →
    weight st !! more = Some wmore →
    same_reals (probability st')
      (<[less := (wless * inject_Z (Z.of_nat sz))%Q]> (probability st)) →
    spec_alias st' = <[less := more]> (spec_alias st) →
    same_reals (weight st')
      (<[more := (wmore + (wless - average sz))%Q]> (weight st)) →
    reclassified (average sz) (wmore + (wless - average sz))%Q more sm lg
      (spec_small st') (spec_large st') →
    spec_step sz st st'.

(** Step 4: every index left in either worklist gets probability 1, the other
    entries stay. *)
Definition spec_drained (st : spec_state) (final : list Q) : Prop :=
  length final = length (probability st) ∧
  ∀ i, (i ∈ spec_small st ++ spec_large st → final !! i = Some 1%Q) ∧
       (i ∉ spec_small st ++ spec_large st → final !! i = probability st !! i).

(** The specification's view of a state of the code's construction. *)
Definition abstraction (w : loc) (st : tstate) : spec_state :=
  SpecState (default [] (t_store st !! w)) (t_proba st) (t_alias st)
            (small st) (large st).

(** ** Predicates on states of the construction *)

(** The three buffers have [sz] entries and the worklists hold indices. *)
Definition well_formed (w : loc) (sz : nat) (st : tstate) : Prop :=
  (∃ b, t_store st !! w = Some b ∧ length b = sz) ∧
  length (t_alias st) = sz ∧
  length (t_proba st) = sz ∧
  Forall (λ i, i < sz) (small st) ∧
  Forall (λ i, i < sz) (large st).

(** Two states that differ only in where the weights are stored. *)
Definition same_view (w1 w2 : loc) (st1 st2 : tstate) : Prop :=
  t_store st1 !! w1 = t_store st2 !! w2 ∧
  t_alias st1 = t_alias st2 ∧
  t_proba st1 = t_proba st2 ∧
  small st1 = small st2 ∧
  large st1 = large st2.

(** Two outcomes of the same kind, with related results. *)
Definition outcome_rel {A B} (R : A → B → Prop) (o1 : outcome A)
    (o2 : outcome B) : Prop :=
  match o1, o2 with
  | Ok a, Ok b => R a b
  | Raise e1, Raise e2 => e1 = e2
  | Undefined, Undefined => True
  | Diverges, Diverges => True
  | _, _ => False
  end.

(** Every entry lies in [0, 1]. *)
Definition unit_interval (l : list Q) : Prop :=
  Forall (λ p, (0 <= p)%Q ∧ (p <= 1)%Q) l.

(** Every entry is non-negative. *)
Definition nonnegative (l : list Q) : Prop := Forall (λ x, (0 <= x)%Q) l.

(** The weights are non-negative, those of the indices in [small] lie below
    the average, those of the indices in [large] do not, and no index is in
    the worklists twice. *)
Definition classified (w : loc) (sz : nat) (st : tstate) : Prop :=
  ∃ b, t_store st !! w = Some b ∧ nonnegative b ∧
       Forall (λ i, ∃ x, b !! i = Some x ∧ (x < average sz)%Q) (small st) ∧
       Forall (λ i, ∃ x, b !! i = Some x ∧ (average sz <= x)%Q) (large st) ∧
       NoDup (small st ++ large st).

(** The same Sampler with its engine in state [g]. *)
Definition with_generator (s : Sampler) (g : Z) : Sampler :=
  MkSampler (n s) g (maxi s) (alias s) (proba s).

(** The Samplers of the specification: built by [__init__] from [n >= 1]
    weights, and then used for any number of draws. *)
Inductive constructed : Sampler → Prop :=
| constructed_init bits (h : store) w b copy seed entropy h' s :
    h !! w = Some b → 1 ≤ length b →
    init bits h w copy seed entropy = Ok (h', s) →
    constructed s
| constructed_draw s g :
    constructed s → constructed (with_generator s g).

(** The store and the view that the construction works on: a new buffer
    when [copy] is set, the caller's own otherwise. *)
Definition working_view (h : store) (w : loc) (b : list Q) (copy : bool)
    : store * loc :=
  if copy then allocate h b else (h, w).

(** The seed is absent or fits the engine's result type. *)
Definition seed_fits (bits : Z) (seed : option Z) : Prop :=
  match seed with
  | None => True
  | Some s => (0 <= s < 2 ^ bits)%Z
  end.

(** The state the engine is seeded to. *)
Definition seeded (seed : option Z) (entropy : Z) : Z :=
  minstd_rand.seed (match seed with None => entropy | Some s => s end).

(** The entries of [proba] lie in [0, 1] and those of [alias] below [sz]. *)
Definition tables_in_range (sz : nat) (st : tstate) : Prop :=
  unit_interval (t_proba st) ∧ Forall (λ a, a < sz) (t_alias st).

(** Two states of a Sampler with the same [n], [maxi] and tables. *)
Definition same_tables (s s' : Sampler) : Prop :=
  n s' = n s ∧ maxi s' = maxi s ∧ alias s' = alias s ∧ proba s' = proba s.

(** What [sample_1] relies on: [n] is the common size of the two tables, it
    is a positive [int], [maxi] is the engine's maximum and [alias] holds
    indices. *)
Definition table_ok (s : Sampler) : Prop :=
  (1 <= n s <= INT_MAX)%Z ∧
  maxi s = minstd_rand.max ∧
  Z.of_nat (length (proba s)) = n s ∧
  Z.of_nat (length (alias s)) = n s ∧
  Forall (λ a, (Z.of_nat a < n s)%Z) (alias s).

(** The indices that [k] successive calls of [sample_1] return. *)
Fixpoint draws (bits : Z) (k : nat) (s : Sampler)
    : outcome (list Z * Sampler) :=
  match k with
  | O => Ok ([], s)
  | S k' =>
      '(x, s1) ← sample_1 bits s;
      '(xs, s2) ← draws bits k' s1;
      Ok (x :: xs, s2)
  end.

(** [out] holds the values at the indices [xs]. *)
Definition gathered (values : list Q) (xs : list Z) (out : list Q) : Prop :=
  Forall2 (λ x v, (0 <= x)%Z ∧ values !! Z.to_nat x = Some v) xs out.

(** ** Mass, during the construction *)

(** The sum of [f j] over the indices [j] of [l]. *)
Definition Qsum (f : nat → Q) (l : list nat) : Q :=
  foldr (λ j acc, (f j + acc)%Q) 0%Q l.

Arguments Qsum : simpl never.

(** What the column [j] sends to [k] by its alias: [(1 - proba[j]) / n] when
    [j] is finished (no longer in a worklist) and [alias[j] = k]. *)
Definition tails_term (nq : Q) (act : list nat) (al : list nat) (pr : list Q)
    (k j : nat) : Q :=
  match al !! j, pr !! j with
  | Some a, Some p =>
      if decide (a = k ∧ j ∉ act) then ((1 - p) / nq)%Q else 0%Q
  | _, _ => 0%Q
  end.

(** The mass of [k] in a state of the construction: its current weight while
    [k] waits in a worklist, [proba[k] / n] once it is finished, and in both
    cases what the finished columns send to it. *)
Definition mass_of (w : loc) (sz : nat) (st : tstate) (k : nat) : Q :=
  let nq := inject_Z (Z.of_nat sz) in
  let b := default [] (t_store st !! w) in
  let act := small st ++ large st in
  ((if decide (k ∈ act) then default 0 (b !! k)
    else default 0 (t_proba st !! k) / nq)
   + Qsum (tails_term nq act (t_alias st) (t_proba st) k) (seq 0 sz))%Q.

(** Every index has the mass of its original weight. *)
Definition mass_conserved (w : loc) (sz : nat) (b0 : list Q) (st : tstate)
    : Prop :=
  ∀ k x, b0 !! k = Some x → (mass_of w sz st k == x)%Q.

(** The weights of the waiting indices average to [avg]. *)
Definition balanced (w : loc) (sz : nat) (st : tstate) : Prop :=
  (Qsum (λ i, default 0 (default [] (t_store st !! w) !! i) - average sz)
        (small st ++ large st) == 0)%Q.

(** The index [i] goes to [small]: its weight in [b] is not at least
    [avg]. *)
Definition below (avg : Q) (b : list Q) (i : nat) : Prop :=
  Qle_bool avg (default 0%Q (b !! i)) = false.

#[global] Instance below_dec avg b i : Decision (below avg b i).
Proof. unfold below. apply _. Defined.

(** * Properties *)

(** ** Single precision *)

Lemma rne_bounds x : (inject_Z (rne x) - (1 # 2) <= x)%Q ∧ (x <= inject_Z (rne x) + (1 # 2))%Q.
Proof.
  unfold rne. pose proof (Qfloor_le x) as H1. pose proof (Qlt_floor x) as H2.
  rewrite inject_Z_plus in H2. change (inject_Z 1) with 1%Q in H2.
  destruct (Qcompare_spec (x - inject_Z (Qfloor x)) (1 # 2)) as [E|Hlt|Hgt].
  - destruct (Z.even (Qfloor x)).
    + split; lra.
    + rewrite inject_Z_plus. change (inject_Z 1) with 1%Q. split; lra.
  - split; lra.
  - rewrite inject_Z_plus. change (inject_Z 1) with 1%Q. split; lra.
Qed.

Lemma rne_mono x y : (x <= y)%Q → (rne x <= rne y)%Z.
Proof.
  intros Hxy. pose proof (Qfloor_resp_le x y Hxy) as Hf.
  pose proof (Qfloor_le x) as Hx1. pose proof (Qlt_floor x) as Hx2.
  pose proof (Qfloor_le y) as Hy1. pose proof (Qlt_floor y) as Hy2.
  rewrite inject_Z_plus in Hx2, Hy2. change (inject_Z 1) with 1%Q in Hx2, Hy2.
  destruct (Z.eq_dec (Qfloor x) (Qfloor y)) as [E|Hne].
  - unfold rne. rewrite <- E in *.
    destruct (Qcompare_spec (x - inject_Z (Qfloor x)) (1 # 2)) as [Ex|Hlx|Hgx],
             (Qcompare_spec (y - inject_Z (Qfloor x)) (1 # 2)) as [Ey|Hly|Hgy];
      try destruct (Z.even (Qfloor x)); try lia; exfalso; lra.
  - assert (Hlt : (Qfloor x + 1 <= Qfloor y)%Z) by lia.
    assert (Hrx : (rne x <= Qfloor x + 1)%Z).
    { unfold rne. destruct (_ ?= _)%Q; try destruct (Z.even _); lia. }
    assert (Hry : (Qfloor y <= rne y)%Z).
    { unfold rne. destruct (_ ?= _)%Q; try destruct (Z.even _); lia. }
    lia.
Qed.

Lemma rne_Z z : rne (inject_Z z) = z.
Proof.
  unfold rne. rewrite Qfloor_Z.
  destruct (Qcompare_spec (inject_Z z - inject_Z z) (1 # 2)) as [E|Hlt|Hgt];
    [exfalso; lra | done | exfalso; lra].
Qed.

Lemma rne_proper x y : (x == y)%Q → rne x = rne y.
Proof.
  intros E. apply Z.le_antisymm; apply rne_mono; rewrite E; apply Qle_refl.
Qed.

Lemma pow2_pos k : (0 < 2 ^ k)%Q.
Proof. by apply Qpower_0_lt. Qed.

Lemma pow2_add a b : (2 ^ (a + b) == 2 ^ a * 2 ^ b)%Q.
Proof. by apply Qpower_plus. Qed.

Lemma pow2_le a b : (a <= b)%Z → (2 ^ a <= 2 ^ b)%Q.
Proof. intros H. apply Qpower_le_compat_l; [done | by unfold Qle]. Qed.

Lemma pow2_Z k : (0 <= k)%Z → (2 ^ k == inject_Z (2 ^ k))%Q.
Proof. intros H. by rewrite Zpower_Qpower. Qed.

Lemma ilog2_spec x : (0 < x)%Q → (2 ^ ilog2 x <= x)%Q ∧ (x < 2 ^ (ilog2 x + 1))%Q.
Proof.
  intros Hx. destruct x as [p q].
  assert (Hp : (0 < p)%Z) by (unfold Qlt in Hx; simpl in Hx; lia).
  unfold ilog2. simpl Qnum. simpl Qden.
  set (a := Z.log2 p). set (b := Z.log2 (Z.pos q)).
  destruct (Z.log2_spec p Hp) as [Ha1 Ha2]. fold a in Ha1, Ha2.
  destruct (Z.log2_spec (Z.pos q) ltac:(lia)) as [Hb1 Hb2]. fold b in Hb1, Hb2.
  assert (Ha0 : (0 <= a)%Z) by apply Z.log2_nonneg.
  assert (Hb0 : (0 <= b)%Z) by apply Z.log2_nonneg.
  rewrite Zle_Qle, <- pow2_Z in Ha1 by done.
  rewrite Zlt_Qlt, <- pow2_Z in Ha2 by lia.
  rewrite Zle_Qle, <- pow2_Z in Hb1 by done.
  rewrite Zlt_Qlt, <- pow2_Z in Hb2 by lia.
  assert (Hq : (0 < inject_Z (Z.pos q))%Q) by (unfold Qlt; simpl; lia).
  assert (Ex : (p # q == inject_Z p / inject_Z (Z.pos q))%Q) by apply Qmake_Qdiv.
  assert (Hup : (p # q < 2 ^ (a - b + 1))%Q).
  { rewrite Ex. apply Qlt_shift_div_r; [done|].
    pose proof (pow2_pos (a - b + 1)) as Hpos.
    assert (E : (2 ^ (a - b + 1) * 2 ^ b == 2 ^ Z.succ a)%Q).
    { rewrite <- pow2_add. by replace (a - b + 1 + b)%Z with (Z.succ a) by lia. }
    assert ((2 ^ (a - b + 1) * 2 ^ b <= 2 ^ (a - b + 1) * inject_Z (Z.pos q))%Q).
    { rewrite !(Qmult_comm (2 ^ (a - b + 1))). apply Qmult_le_compat_r; [done|].
      by apply Qlt_le_weak. }
    lra. }
  assert (Hlow : (2 ^ (a - b - 1) <= p # q)%Q).
  { rewrite Ex. apply Qle_shift_div_l; [done|].
    pose proof (pow2_pos (a - b - 1)) as Hpos.
    assert (E : (2 ^ (a - b - 1) * 2 ^ Z.succ b == 2 ^ a)%Q).
    { rewrite <- pow2_add. by replace (a - b - 1 + Z.succ b)%Z with a by lia. }
    assert ((2 ^ (a - b - 1) * inject_Z (Z.pos q) <= 2 ^ (a - b - 1) * 2 ^ Z.succ b)%Q).
    { rewrite !(Qmult_comm (2 ^ (a - b - 1))). apply Qmult_le_compat_r.
      - by apply Qlt_le_weak.
      - by apply Qlt_le_weak. }
    lra. }
  destruct (Qle_bool (2 ^ (a - b)) (p # q)) eqn:Hc.
  - apply Qle_bool_iff in Hc. done.
  - split; [done|]. replace (a - b - 1 + 1)%Z with (a - b)%Z by lia.
    apply Qnot_le_lt. intros Hle. apply Qle_bool_iff in Hle. congruence.
Qed.

Lemma ulp_exponent_min x : (-149 <= ulp_exponent x)%Z.
Proof. unfold ulp_exponent. lia. Qed.

Lemma ulp_exponent_upper x :
  (0 < Qabs x)%Q → (Qabs x < 2 ^ (ulp_exponent x + 24))%Q.
Proof.
  intros Hx. destruct (ilog2_spec (Qabs x) Hx) as [_ Hup].
  eapply Qlt_le_trans; [exact Hup|]. apply pow2_le. unfold ulp_exponent. lia.
Qed.

Lemma ulp_exponent_lower x :
  (0 < Qabs x)%Q → (-149 < ulp_exponent x)%Z →
  (2 ^ (ulp_exponent x + 23) <= Qabs x)%Q.
Proof.
  intros Hx He. destruct (ilog2_spec (Qabs x) Hx) as [Hlow _].
  replace (ulp_exponent x + 23)%Z with (ilog2 (Qabs x)); [done|].
  unfold ulp_exponent in *. lia.
Qed.

(** Rounding on the grid of step [2^e] does not cross a point of the grid. *)
Lemma grid_le e x k :
  (x <= inject_Z k * 2 ^ e)%Q →
  (inject_Z (rne (x / 2 ^ e)) * 2 ^ e <= inject_Z k * 2 ^ e)%Q.
Proof.
  intros H. pose proof (pow2_pos e) as Hpos.
  apply Qmult_le_compat_r; [|by apply Qlt_le_weak].
  rewrite <- Zle_Qle. rewrite <- (rne_Z k). apply rne_mono.
  by apply Qle_shift_div_r.
Qed.

Lemma grid_ge e x k :
  (inject_Z k * 2 ^ e <= x)%Q →
  (inject_Z k * 2 ^ e <= inject_Z (rne (x / 2 ^ e)) * 2 ^ e)%Q.
Proof.
  intros H. pose proof (pow2_pos e) as Hpos.
  apply Qmult_le_compat_r; [|by apply Qlt_le_weak].
  rewrite <- Zle_Qle. rewrite <- (rne_Z k) at 1. apply rne_mono.
  by apply Qle_shift_div_l.
Qed.

Lemma pow2_grid a e : (e <= a)%Z → (2 ^ a == inject_Z (2 ^ (a - e)) * 2 ^ e)%Q.
Proof.
  intros H. rewrite <- pow2_Z by lia. rewrite <- pow2_add.
  by replace (a - e + e)%Z with a by lia.
Qed.

Lemma round32_nonneg x : (0 <= x)%Q → (0 <= round32 x)%Q.
Proof.
  intros Hx. unfold round32.
  pose proof (grid_ge (ulp_exponent x) x 0) as H.
  rewrite Qmult_0_l in H. by apply H.
Qed.

Lemma round32_nonpos x : (x <= 0)%Q → (round32 x <= 0)%Q.
Proof.
  intros Hx. unfold round32.
  pose proof (grid_le (ulp_exponent x) x 0) as H.
  rewrite Qmult_0_l in H. by apply H.
Qed.

Lemma round32_mono_same x y :
  ulp_exponent x = ulp_exponent y → (x <= y)%Q → (round32 x <= round32 y)%Q.
Proof.
  intros E Hxy. unfold round32. rewrite E.
  pose proof (pow2_pos (ulp_exponent y)) as Hpos.
  apply Qmult_le_compat_r; [|by apply Qlt_le_weak].
  rewrite <- Zle_Qle. apply rne_mono.
  apply Qmult_le_compat_r; [done|]. apply Qlt_le_weak. by apply Qinv_lt_0_compat.
Qed.

Lemma round32_mono_pos x y :
  (0 < x)%Q → (x <= y)%Q → (round32 x <= round32 y)%Q.
Proof.
  intros Hx Hxy.
  assert (Hy : (0 < y)%Q) by lra.
  assert (Ax : (Qabs x == x)%Q) by (apply Qabs_pos; lra).
  assert (Ay : (Qabs y == y)%Q) by (apply Qabs_pos; lra).
  assert (Hax : (0 < Qabs x)%Q) by (rewrite Ax; done).
  assert (Hay : (0 < Qabs y)%Q) by (rewrite Ay; done).
  pose proof (ulp_exponent_upper x Hax) as Hux.
  pose proof (ulp_exponent_upper y Hay) as Huy.
  pose proof (ulp_exponent_min x) as Hmx.
  pose proof (ulp_exponent_min y) as Hmy.
  rewrite Ax in Hux. rewrite Ay in Huy.
  destruct (Z.lt_trichotomy (ulp_exponent x) (ulp_exponent y)) as [Hlt|[E|Hgt]].
  - pose proof (ulp_exponent_lower y Hay ltac:(lia)) as Hly. rewrite Ay in Hly.
    set (B := (2 ^ (ulp_exponent y + 23))%Q) in *.
    assert (HxB : (x <= B)%Q).
    { apply Qlt_le_weak. eapply Qlt_le_trans; [exact Hux|]. apply pow2_le. lia. }
    apply Qle_trans with B.
    + unfold round32.
      assert (EB : (B == inject_Z (2 ^ (ulp_exponent y + 23 - ulp_exponent x))
                        * 2 ^ ulp_exponent x)%Q) by (apply pow2_grid; lia).
      rewrite EB. apply grid_le. by rewrite <- EB.
    + unfold round32.
      assert (EB : (B == inject_Z (2 ^ (ulp_exponent y + 23 - ulp_exponent y))
                        * 2 ^ ulp_exponent y)%Q) by (apply pow2_grid; lia).
      rewrite EB. apply grid_ge. by rewrite <- EB.
  - by apply round32_mono_same.
  - exfalso. pose proof (ulp_exponent_lower x Hax ltac:(lia)) as Hlx.
    rewrite Ax in Hlx.
    assert ((2 ^ (ulp_exponent y + 24) <= 2 ^ (ulp_exponent x + 23))%Q)
      by (apply pow2_le; lia).
    lra.
Qed.

Lemma round32_mono_neg x y :
  (y < 0)%Q → (x <= y)%Q → (round32 x <= round32 y)%Q.
Proof.
  intros Hy Hxy.
  assert (Hx : (x < 0)%Q) by lra.
  assert (Ax : (Qabs x == - x)%Q) by (apply Qabs_neg; lra).
  assert (Ay : (Qabs y == - y)%Q) by (apply Qabs_neg; lra).
  assert (Hax : (0 < Qabs x)%Q) by (rewrite Ax; lra).
  assert (Hay : (0 < Qabs y)%Q) by (rewrite Ay; lra).
  pose proof (ulp_exponent_upper x Hax) as Hux.
  pose proof (ulp_exponent_upper y Hay) as Huy.
  pose proof (ulp_exponent_min x) as Hmx.
  pose proof (ulp_exponent_min y) as Hmy.
  rewrite Ax in Hux. rewrite Ay in Huy.
  destruct (Z.lt_trichotomy (ulp_exponent x) (ulp_exponent y)) as [Hlt|[E|Hgt]].
  - exfalso. pose proof (ulp_exponent_lower y Hay ltac:(lia)) as Hly.
    rewrite Ay in Hly.
    assert ((2 ^ (ulp_exponent x + 24) <= 2 ^ (ulp_exponent y + 23))%Q)
      by (apply pow2_le; lia).
    lra.
  - by apply round32_mono_same.
  - pose proof (ulp_exponent_lower x Hax ltac:(lia)) as Hlx. rewrite Ax in Hlx.
    set (B := (2 ^ (ulp_exponent x + 23))%Q) in *.
    assert (HyB : (- B <= y)%Q).
    { assert ((2 ^ (ulp_exponent y + 24) <= B)%Q) by (apply pow2_le; lia). lra. }
    apply Qle_trans with (- B)%Q.
    + unfold round32.
      assert (EB : (- B == inject_Z (- 2 ^ (ulp_exponent x + 23 - ulp_exponent x))
                          * 2 ^ ulp_exponent x)%Q).
      { rewrite inject_Z_opp. unfold B.
        rewrite (pow2_grid (ulp_exponent x + 23) (ulp_exponent x)) by lia. ring. }
      rewrite EB. apply grid_le. rewrite <- EB. lra.
    + unfold round32.
      assert (EB : (- B == inject_Z (- 2 ^ (ulp_exponent x + 23 - ulp_exponent y))
                          * 2 ^ ulp_exponent y)%Q).
      { rewrite inject_Z_opp. unfold B.
        rewrite (pow2_grid (ulp_exponent x + 23) (ulp_exponent y)) by lia. ring. }
      rewrite EB. apply grid_ge. by rewrite <- EB.
Qed.

(** Rounding is monotone. *)
Lemma round32_mono x y : (x <= y)%Q → (round32 x <= round32 y)%Q.
Proof.
  intros Hxy. destruct (Qlt_le_dec 0 x) as [Hx|Hx].
  - by apply round32_mono_pos.
  - destruct (Qlt_le_dec y 0) as [Hy|Hy].
    + by apply round32_mono_neg.
    + apply Qle_trans with 0%Q; [by apply round32_nonpos | by apply round32_nonneg].
Qed.

Lemma negative_true q : negative q = true ↔ (q < 0)%Q.
Proof.
  unfold negative. split.
  - intros H. apply Qnot_le_lt. intros Hle. apply Qle_bool_iff in Hle.
    rewrite Hle in H. done.
  - intros H. destruct (Qle_bool 0 q) eqn:E; [|done].
    apply Qle_bool_iff in E. lra.
Qed.

Lemma negative_false q : negative q = false ↔ (0 <= q)%Q.
Proof.
  unfold negative. split.
  - intros H. apply Qle_bool_iff. by destruct (Qle_bool 0 q).
  - intros H. apply Qle_bool_iff in H. by rewrite H.
Qed.

Lemma abs_large t r : (0 < t)%Q → (t <= Qabs r)%Q → (r <= - t)%Q ∨ (t <= r)%Q.
Proof.
  intros Ht H. destruct (Qlt_le_dec r 0) as [Hr|Hr].
  - left. rewrite Qabs_neg in H by lra. lra.
  - right. by rewrite Qabs_pos in H.
Qed.

Lemma abs_small t r : ¬ (t <= Qabs r)%Q → (- t < r)%Q ∧ (r < t)%Q.
Proof.
  intros H. apply Qnot_le_lt in H. destruct (Qlt_le_dec r 0) as [Hr|Hr].
  - rewrite Qabs_neg in H by lra. lra.
  - rewrite Qabs_pos in H by done. lra.
Qed.

Lemma f32_of_Q_cases x :
  (f32_of_Q x = Finite (round32 x) ∧
   (- 2 ^ 128 < round32 x)%Q ∧ (round32 x < 2 ^ 128)%Q) ∨
  (f32_of_Q x = Infinity true ∧ (round32 x <= - 2 ^ 128)%Q) ∨
  (f32_of_Q x = Infinity false ∧ (2 ^ 128 <= round32 x)%Q).
Proof.
  unfold f32_of_Q. pose proof (pow2_pos 128) as Hpos.
  destruct (Qle_bool (2 ^ 128) (Qabs (round32 x))) eqn:E.
  - apply Qle_bool_iff in E. right.
    destruct (abs_large _ _ Hpos E) as [H|H].
    + left. split; [|done]. f_equal. apply negative_true. lra.
    + right. split; [|done]. f_equal. apply negative_false. lra.
  - left. split; [done|]. apply abs_small. intros H.
    apply Qle_bool_iff in H. congruence.
Qed.

Lemma f32_of_Q_nonneg x : (0 <= x)%Q → f32_nonneg (f32_of_Q x).
Proof.
  intros Hx. pose proof (round32_nonneg x Hx). pose proof (pow2_pos 128).
  destruct (f32_of_Q_cases x) as [(-> & _)|[(-> & ?)|(-> & ?)]]; simpl;
    try done; lra.
Qed.

Lemma f32_of_Q_not_positive x : (x <= 0)%Q → f32_not_positive (f32_of_Q x).
Proof.
  intros Hx. pose proof (round32_nonpos x Hx). pose proof (pow2_pos 128).
  destruct (f32_of_Q_cases x) as [(-> & _)|[(-> & ?)|(-> & ?)]]; simpl;
    try done; lra.
Qed.

Lemma f32_of_Q_mono x y : (x <= y)%Q → f32_le (f32_of_Q x) (f32_of_Q y).
Proof.
  intros Hxy. pose proof (round32_mono x y Hxy). pose proof (pow2_pos 128).
  destruct (f32_of_Q_cases x) as [(-> & ? & ?)|[(-> & ?)|(-> & ?)]],
           (f32_of_Q_cases y) as [(-> & ? & ?)|[(-> & ?)|(-> & ?)]]; simpl;
    try done; try (by left); try (by right); lra.
Qed.

Lemma f32_mul_not_positive m p :
  f32_nonneg m → f32_not_positive p → f32_not_positive (f32_mul m p).
Proof.
  destruct m as [x|s|], p as [y|t|]; simpl; try done.
  - intros Hx Hy. apply f32_of_Q_not_positive.
    rewrite <- (Qmult_0_r x). rewrite !(Qmult_comm x).
    by apply Qmult_le_compat_r.
  - intros Hx ->. destruct (Qeq_bool x 0); [done|]. simpl.
    by apply negative_false in Hx as ->.
  - intros -> Hy. destruct (Qeq_bool y 0) eqn:E; [done|]. simpl.
    apply negative_true. apply Qeq_bool_neq in E.
    destruct (Qlt_le_dec y 0); [done|]. exfalso. apply E. lra.
  - intros -> ->. done.
Qed.

Lemma f32_lt_not_positive d x :
  f32_nonneg d → f32_not_positive x → f32_lt d x = false.
Proof.
  destruct d as [a|s|], x as [b|t|]; simpl; try done.
  - intros Ha Hb. apply negb_false_iff. apply Qle_bool_iff. lra.
  - intros _ ->. done.
  - intros -> _. done.
Qed.

Lemma f32_mul_mono m p q :
  f32_nonneg m → f32_le p q →
  f32_not_positive (f32_mul m p) ∨ f32_le (f32_mul m p) (f32_mul m q).
Proof.
  destruct m as [x|s|]; [| |done].
  - intros Hx. simpl in Hx. destruct p as [y|t|], q as [z|u|]; simpl; try done.
    + intros Hyz. right. apply f32_of_Q_mono.
      rewrite !(Qmult_comm x). by apply Qmult_le_compat_r.
    + intros ->. destruct (Qeq_bool x 0) eqn:E.
      * left. apply Qeq_bool_iff in E. apply f32_of_Q_not_positive.
        rewrite E. lra.
      * right. simpl. apply negative_false in Hx as ->.
        destruct (f32_of_Q_cases (x * y)) as [(-> & _)|[(-> & _)|(-> & _)]];
          simpl; auto.
    + intros ->. left. destruct (Qeq_bool x 0); [done|]. simpl.
      by apply negative_false in Hx as ->.
    + intros [-> | ->].
      * left. destruct (Qeq_bool x 0); [done|]. simpl.
        by apply negative_false in Hx as ->.
      * destruct (Qeq_bool x 0); [by left|]. right. simpl.
        apply negative_false in Hx as ->. destruct t; auto.
  - intros ->. destruct p as [y|t|], q as [z|u|]; simpl; try done.
    + intros Hyz. destruct (Qeq_bool y 0) eqn:Ey; [by left|].
      destruct (negative y) eqn:Ny; [by left|]. right.
      apply negative_false in Ny. apply Qeq_bool_neq in Ey.
      assert (Hz : (0 < z)%Q).
      { destruct (Qlt_le_dec 0 y); [lra|]. exfalso. apply Ey. lra. }
      destruct (Qeq_bool z 0) eqn:Ez.
      { apply Qeq_bool_iff in Ez. lra. }
      simpl. right. apply negative_false. lra.
    + intros ->. destruct (Qeq_bool y 0); [by left|]. right.
      simpl. destruct (negative y); auto.
    + intros ->. left. destruct (Qeq_bool z 0); done.
    + intros [-> | ->]; [by left|]. right. destruct t; simpl; auto.
Qed.

Lemma f32_lt_le_trans d x y :
  f32_lt d x = true → f32_le x y → f32_lt d y = true.
Proof.
  destruct d as [a|s|], x as [b|t|], y as [c|u|]; simpl; intros H Hle;
    try done; try (subst; done); try (subst; destruct s; done);
    try (destruct Hle as [?|?]; subst; try done; destruct s; done).
  apply negb_true_iff in H. apply negb_true_iff.
  destruct (Qle_bool c a) eqn:E; [|done]. apply Qle_bool_iff in E.
  assert (Qle_bool b a = true) by (apply Qle_bool_iff; lra). congruence.
Qed.

(** ** Reads and writes *)

Lemma read_lookup {A} (l : list A) i x : l !! i = Some x → read l i = Ok x.
Proof. intros H. unfold read. by rewrite H. Qed.

Lemma write_lt {A} (l : list A) i x : i < length l → write l i x = Ok (<[i := x]> l).
Proof. intros H. unfold write. by rewrite decide_True. Qed.

Lemma load_lookup (h : store) w b i x :
  h !! w = Some b → b !! i = Some x → load h w i = Ok x.
Proof. intros Hb Hx. unfold load. rewrite Hb. by apply read_lookup. Qed.

Lemma store_at_lt (h : store) w b i x :
  h !! w = Some b → i < length b →
  store_at h w i x = Ok (<[w := <[i := x]> b]> h).
Proof. intros Hb Hi. unfold store_at. rewrite Hb, write_lt by done. done. Qed.

(** ** One round of the pairing loop *)

Lemma pair_body_run w sz avg less more sm lg st b :
  t_store st !! w = Some b →
  length b = sz → length (t_alias st) = sz → length (t_proba st) = sz →
  less < sz → more < sz →
  ∃ wless wmore,
    b !! less = Some wless ∧ b !! more = Some wmore ∧
    let x := (wmore + wless - avg)%Q in
    pair_body w sz avg less more sm lg st =
      Ok (TState (<[w := <[more := x]> b]> (t_store st))
                 (<[less := more]> (t_alias st))
                 (<[less := (wless * inject_Z (Z.of_nat sz))%Q]> (t_proba st))
                 (if Qle_bool avg x then sm else push_front more sm)
                 (if Qle_bool avg x then push_front more lg else lg)).
Proof.
  intros Hb Hlb Hla Hlp Hless Hmore.
  destruct (lookup_lt_is_Some_2 b less) as [wless Hwl]; [lia|].
  destruct (lookup_lt_is_Some_2 b more) as [wmore Hwm]; [lia|].
  exists wless, wmore. split; [done|]. split; [done|]. simpl.
  unfold pair_body.
  rewrite (load_lookup _ _ _ _ _ Hb Hwl). simpl.
  rewrite write_lt by lia. simpl.
  rewrite write_lt by lia. simpl.
  rewrite (load_lookup _ _ _ _ _ Hb Hwm). simpl.
  rewrite (store_at_lt _ _ _ _ _ Hb) by lia. simpl.
  erewrite load_lookup; [| apply lookup_insert_eq | apply list_lookup_insert_eq; lia].
  simpl. by destruct (Qle_bool _ _).
Qed.

Lemma pair_body_wf w sz less more sm lg st :
  well_formed w sz st → small st = less :: sm → large st = more :: lg →
  ∃ b wless wmore st',
    t_store st !! w = Some b ∧ b !! less = Some wless ∧ b !! more = Some wmore ∧
    st' = TState (<[w := <[more := (wmore + wless - average sz)%Q]> b]> (t_store st))
                 (<[less := more]> (t_alias st))
                 (<[less := (wless * inject_Z (Z.of_nat sz))%Q]> (t_proba st))
                 (if Qle_bool (average sz) (wmore + wless - average sz)
                  then sm else push_front more sm)
                 (if Qle_bool (average sz) (wmore + wless - average sz)
                  then push_front more lg else lg) ∧
    pair_body w sz (average sz) less more sm lg st = Ok st' ∧
    well_formed w sz st' ∧
    length (small st') + length (large st') = length sm + length lg + 1.
Proof.
  intros ([b [Hb Hlb]] & Hla & Hlp & Hsm & Hlg) Es El.
  rewrite Es in Hsm. rewrite El in Hlg.
  apply Forall_cons in Hsm as [Hless Hsm]. apply Forall_cons in Hlg as [Hmore Hlg].
  destruct (pair_body_run w sz (average sz) less more sm lg st b)
    as (wless & wmore & Hwl & Hwm & Hrun); try done.
  simpl in Hrun. eexists b, wless, wmore, _.
  split; [done|]. split; [done|]. split; [done|]. split; [reflexivity|].
  split; [exact Hrun|]. split.
  - unfold well_formed; simpl. split.
    { eexists. rewrite lookup_insert_eq. split; [done|]. by rewrite length_insert. }
    rewrite !length_insert. split; [done|]. split; [done|].
    unfold push_front.
    destruct (Qle_bool _ _); (split; [|]); try done;
      apply Forall_app; split; try done; by apply Forall_singleton.
  - simpl. unfold push_front.
    destruct (Qle_bool _ _); rewrite length_app; simpl; lia.
Qed.

(** The loop rule: a property kept by every round holds when the loop ends,
    and the loop ends within as many rounds as the worklists hold indices. *)
Lemma pair_loop_invariant w sz avg (I : tstate → Prop) :
  (∀ st less sm more lg,
     I st → small st = less :: sm → large st = more :: lg →
     ∃ st', pair_body w sz avg less more sm lg st = Ok st' ∧ I st' ∧
            length (small st') + length (large st') = length sm + length lg + 1) →
  ∀ fuel st,
    I st → length (small st) + length (large st) ≤ fuel →
    ∃ st', pair_loop fuel w sz avg st = Ok st' ∧ I st' ∧
           (small st' = [] ∨ large st' = []).
Proof.
  intros Hbody. induction fuel as [|fuel IH]; intros st HI Hfuel.
  - destruct (small st) eqn:Es; simpl in *.
    + exists st. cbn. rewrite Es. auto.
    + lia.
  - destruct (small st) as [|less sm] eqn:Es.
    { exists st. cbn. rewrite Es. auto. }
    destruct (large st) as [|more lg] eqn:El.
    { exists st. cbn. rewrite Es, El. auto. }
    destruct (Hbody st less sm more lg HI Es El) as (st1 & Hrun & HI1 & Hlen).
    destruct (IH st1 HI1) as (st' & Hloop & HI' & Hexit).
    { simpl in Hfuel. lia. }
    exists st'. cbn. rewrite Es, El, Hrun. simpl. auto.
Qed.

Lemma populate_run (h : store) w avg b idx : ∀ sm0 lg0,
  h !! w = Some b → Forall (λ i, i < length b) idx →
  ∃ sm lg, populate h w avg idx sm0 lg0 = Ok (sm, lg) ∧
           sm ++ lg ≡ₚ sm0 ++ lg0 ++ idx.
Proof.
  induction idx as [|i idx IH]; intros sm0 lg0 Hb Hidx.
  - exists sm0, lg0. split; [done|]. by rewrite app_nil_r.
  - apply Forall_cons in Hidx as [Hi Hidx].
    destruct (lookup_lt_is_Some_2 b i Hi) as [x Hx].
    cbn. rewrite (load_lookup _ _ _ _ _ Hb Hx). simpl.
    destruct (Qle_bool avg x).
    + destruct (IH sm0 (push_front i lg0) Hb Hidx) as (sm & lg & -> & Hp).
      exists sm, lg. split; [done|]. rewrite Hp. unfold push_front.
      by rewrite <- !app_assoc.
    + destruct (IH (push_front i sm0) lg0 Hb Hidx) as (sm & lg & -> & Hp).
      exists sm, lg. split; [done|]. rewrite Hp. unfold push_front.
      rewrite <- !app_assoc. apply Permutation_app_head.
      simpl. rewrite (Permutation_middle lg0 idx i). done.
Qed.

Lemma drain_run d : ∀ pr,
  Forall (λ i, i < length pr) d →
  ∃ final, drain d pr = Ok final ∧ length final = length pr ∧
    ∀ i, (i ∈ d → final !! i = Some 1%Q) ∧ (i ∉ d → final !! i = pr !! i).
Proof.
  induction d as [|j d IH]; intros pr Hd.
  - exists pr. split; [done|]. split; [done|]. intros i. split; [|done].
    intros Hi. by apply elem_of_nil in Hi.
  - apply Forall_cons in Hd as [Hj Hd]. cbn. rewrite write_lt by done. simpl.
    destruct (IH (<[j := 1%Q]> pr)) as (final & Hrun & Hlen & Hfinal).
    { by rewrite length_insert. }
    exists final. split; [done|]. rewrite length_insert in Hlen. split; [done|].
    intros i. split.
    + intros Hi. destruct (decide (i ∈ d)) as [Hin|Hnin]; [by apply Hfinal|].
      apply elem_of_cons in Hi as [->|Hi]; [|done].
      destruct (Hfinal j) as [_ Hk]. rewrite Hk by done. by apply list_lookup_insert_eq.
    + intros Hi. apply not_elem_of_cons in Hi as [Hne Hi].
      destruct (Hfinal i) as [_ Hk]. rewrite Hk by done. by apply list_lookup_insert_ne.
Qed.

(** ** The whole construction *)

Lemma size_as_int_fits (b : list Q) :
  (Z.of_nat (length b) <= INT_MAX)%Z → size_as_int b = Ok (length b).
Proof.
  intros H. unfold size_as_int.
  destruct (Z.ltb_spec INT_MAX (Z.of_nat (length b))); [lia | done].
Qed.

(** The construction returns, and a property of the state that holds when
    the pairing loop starts and is kept by every round holds of the state
    [st] the loop ends in; the final probabilities are those of [st] with 1
    at the indices left in the worklists. *)
Lemma build_tables_invariant (h : store) w b (I : tstate → Prop) :
  h !! w = Some b → (Z.of_nat (length b) <= INT_MAX)%Z →
  (∀ sm lg,
     populate h w (average (length b)) (seq 0 (length b)) [] [] = Ok (sm, lg) →
     sm ++ lg ≡ₚ seq 0 (length b) →
     I (TState h (replicate (length b) 0) (replicate (length b) 0%Q) sm lg)) →
  (∀ st less sm more lg st',
     well_formed w (length b) st → I st →
     small st = less :: sm → large st = more :: lg →
     pair_body w (length b) (average (length b)) less more sm lg st = Ok st' →
     I st') →
  ∃ st final,
    well_formed w (length b) st ∧ I st ∧ (small st = [] ∨ large st = []) ∧
    length final = length b ∧
    (∀ i, (i ∈ small st ++ large st → final !! i = Some 1%Q) ∧
          (i ∉ small st ++ large st → final !! i = t_proba st !! i)) ∧
    build_tables h w = Ok (length b, TState (t_store st) (t_alias st) final [] []).
Proof.
  intros Hb Hfit Hinit Hkeep.
  set (sz := length b) in *.
  destruct (populate_run h w (average sz) b (seq 0 sz) [] [] Hb)
    as (sm & lg & Hpop & Hperm).
  { apply Forall_forall. intros i Hi. apply elem_of_seq in Hi. lia. }
  simpl in Hperm.
  set (st0 := TState h (replicate sz 0) (replicate sz 0%Q) sm lg).
  assert (Hwf0 : well_formed w sz st0).
  { unfold well_formed, st0; simpl. rewrite !length_replicate.
    split; [by exists b|]. split; [done|]. split; [done|].
    assert (Hall : Forall (λ i, i < sz) (sm ++ lg)).
    { rewrite Hperm. apply Forall_forall. intros i Hi.
      apply elem_of_seq in Hi. lia. }
    by apply Forall_app in Hall. }
  destruct (pair_loop_invariant w sz (average sz)
              (λ st, well_formed w sz st ∧ I st)) with (fuel := sz) (st := st0)
    as (st & Hloop & [Hwf HI] & Hexit).
  - intros st1 less sm1 more lg1 [Hwf1 HI1] Es El.
    destruct (pair_body_wf w sz less more sm1 lg1 st1 Hwf1 Es El)
      as (b1 & wl & wm & st' & _ & _ & _ & _ & Hrun & Hwf' & Hlen).
    exists st'. split; [done|]. split; [|done]. split; [done|].
    by apply (Hkeep st1 less sm1 more lg1).
  - split; [done|]. by apply Hinit.
  - unfold st0; simpl. rewrite <- length_app, Hperm, length_seq. done.
  - destruct Hwf as (Hst & Hla & Hlp & Hsm & Hlg).
    destruct (drain_run (small st) (t_proba st)) as (p1 & Hd1 & Hl1 & Hp1).
    { by rewrite Hlp. }
    destruct (drain_run (large st) p1) as (p2 & Hd2 & Hl2 & Hp2).
    { by rewrite Hl1, Hlp. }
    exists st, p2. split; [done|]. split; [done|]. split; [done|].
    split; [lia|]. split.
    + intros i. split.
      * intros Hi. destruct (decide (i ∈ large st)) as [Hin|Hnin].
        { by apply Hp2. }
        apply elem_of_app in Hi as [Hi|Hi]; [|done].
        destruct (Hp2 i) as [_ Hk]. rewrite Hk by done. by apply Hp1.
      * intros Hi. apply not_elem_of_app in Hi as [Hi1 Hi2].
        destruct (Hp2 i) as [_ Hk]. rewrite Hk by done. by apply Hp1.
    + unfold build_tables. rewrite Hb. simpl.
      rewrite size_as_int_fits by done. simpl. fold sz.
      rewrite Hpop. simpl. fold st0. rewrite Hloop. simpl.
      rewrite Hd1. simpl. rewrite Hd2. done.
Qed.

(** ** [__init__] *)

Lemma working_view_lookup (h : store) w b copy :
  h !! w = Some b →
  (working_view h w b copy).1 !! (working_view h w b copy).2 = Some b.
Proof.
  intros Hb. destruct copy; simpl; [|done]. apply lookup_insert_eq.
Qed.

Lemma as_result_type_fits bits z :
  (0 <= z < 2 ^ bits)%Z → as_result_type bits z = Ok z.
Proof.
  intros Hz. unfold as_result_type.
  destruct (Z.ltb_spec z 0); [lia|].
  destruct (Z.leb_spec (2 ^ bits) z); [lia|]. done.
Qed.

Lemma as_result_type_overflow bits z :
  ¬ (0 <= z < 2 ^ bits)%Z → as_result_type bits z = Raise OverflowError.
Proof.
  intros Hz. unfold as_result_type.
  destruct (Z.ltb_spec z 0); [done|].
  destruct (Z.leb_spec (2 ^ bits) z); [done|]. lia.
Qed.

(** A seed that does not fit the engine's result type is refused before
    anything else is done. *)
Lemma init_seed_overflow bits (h : store) w copy seed entropy :
  ¬ seed_fits bits seed →
  init bits h w copy seed entropy = Raise OverflowError.
Proof.
  intros Hs. unfold init. destruct seed as [sd|]; simpl in Hs; [|done].
  by rewrite as_result_type_overflow.
Qed.

(** The copy of an empty buffer is refused. *)
Lemma init_copy_empty bits (h : store) w seed entropy :
  h !! w = Some [] → seed_fits bits seed →
  init bits h w true seed entropy = Raise ValueError.
Proof.
  intros Hb Hs. unfold init. destruct seed as [sd|]; simpl in Hs.
  - rewrite as_result_type_fits by done. simpl. by rewrite Hb.
  - simpl. by rewrite Hb.
Qed.

Lemma init_returns_fits bits (h : store) w copy seed entropy r :
  init bits h w copy seed entropy = Ok r → seed_fits bits seed.
Proof.
  intros Hrun. destruct seed as [sd|]; [|done]. simpl.
  destruct (decide (0 <= sd < 2 ^ bits)%Z) as [?|Hn]; [done|].
  rewrite init_seed_overflow in Hrun by done. done.
Qed.

Lemma nonempty_copy (b : list Q) (copy : bool) :
  1 ≤ length b → copy = true → b ≠ [].
Proof. intros H _ ->. simpl in H. lia. Qed.

Lemma init_build bits (h : store) w b copy seed entropy :
  h !! w = Some b → seed_fits bits seed → (copy = true → b ≠ []) →
  init bits h w copy seed entropy =
    '(sz, st) ← build_tables (working_view h w b copy).1
                             (working_view h w b copy).2;
    Ok (t_store st,
        MkSampler (Z.of_nat sz) (seeded seed entropy) minstd_rand.max
                  (t_alias st) (t_proba st)).
Proof.
  intros Hb Hs Hne. unfold init, working_view, seeded.
  assert (E : (match seed with
               | None => Ok entropy
               | Some s => as_result_type bits s
               end) = Ok (match seed with None => entropy | Some s => s end)).
  { destruct seed as [sd|]; [|done]. by apply as_result_type_fits. }
  rewrite E. destruct copy; [|done]. rewrite Hb.
  destruct b as [|x b]; [by destruct Hne|]. done.
Qed.

(** With a seed that fits, [__init__] returns for every buffer whose size
    fits an [int] (not empty if it is to be copied), and the state [st] its
    pairing loop ends in has every property that holds when the loop starts
    and that each round keeps. *)
Lemma init_invariant bits (h : store) w b copy seed entropy
    (I : tstate → Prop) :
  h !! w = Some b → seed_fits bits seed → (copy = true → b ≠ []) →
  (Z.of_nat (length b) <= INT_MAX)%Z →
  let hw := working_view h w b copy in
  (∀ sm lg,
     populate hw.1 hw.2 (average (length b)) (seq 0 (length b)) [] [] = Ok (sm, lg) →
     sm ++ lg ≡ₚ seq 0 (length b) →
     I (TState hw.1 (replicate (length b) 0) (replicate (length b) 0%Q) sm lg)) →
  (∀ st less sm more lg st',
     well_formed hw.2 (length b) st → I st →
     small st = less :: sm → large st = more :: lg →
     pair_body hw.2 (length b) (average (length b)) less more sm lg st = Ok st' →
     I st') →
  ∃ st final,
    well_formed hw.2 (length b) st ∧ I st ∧ (small st = [] ∨ large st = []) ∧
    length final = length b ∧
    (∀ i, (i ∈ small st ++ large st → final !! i = Some 1%Q) ∧
          (i ∉ small st ++ large st → final !! i = t_proba st !! i)) ∧
    init bits h w copy seed entropy =
      Ok (t_store st,
          MkSampler (Z.of_nat (length b)) (seeded seed entropy) minstd_rand.max
                    (t_alias st) final).
Proof.
  intros Hb Hs Hne Hfit hw Hinit Hkeep.
  destruct (build_tables_invariant hw.1 hw.2 b I)
    as (st & final & Hwf & HI & Hexit & Hlen & Hfinal & Hrun); try done.
  { by apply working_view_lookup. }
  exists st, final. repeat (split; [done|]).
  rewrite (init_build bits h w b) by done. fold hw. rewrite Hrun. done.
Qed.

(** C2, as the code has it: [__init__] checks no weight.  It raises
    [InvalidInput] exactly when it is asked to copy an empty buffer (the
    refusal is that of [weights.copy()]), and [OverflowError] exactly when
    the seed does not fit the engine's result type or the size does not fit
    an [int].  In every other case, so for an empty buffer that is not
    copied and for weights of any sign, it returns a Sampler with [n] the
    size of the buffer and two tables of that size. *)
Theorem init_checks_no_weight bits (h : store) w b copy seed entropy :
  h !! w = Some b →
  (init bits h w copy seed entropy = Raise InvalidInput
   ↔ seed_fits bits seed ∧ copy = true ∧ b = []) ∧
  (init bits h w copy seed entropy = Raise OverflowError
   ↔ ¬ seed_fits bits seed ∨ (INT_MAX < Z.of_nat (length b))%Z) ∧
  (seed_fits bits seed → (copy = true → b ≠ []) →
   (Z.of_nat (length b) <= INT_MAX)%Z →
   ∃ h' s, init bits h w copy seed entropy = Ok (h', s) ∧
           n s = Z.of_nat (length b) ∧
           length (alias s) = length b ∧ length (proba s) = length b).
Proof.
  intros Hb.
  assert (Hdec : seed_fits bits seed ∨ ¬ seed_fits bits seed).
  { destruct seed as [sd|]; simpl; [lia | by left]. }
  assert (Hbig : seed_fits bits seed → (copy = true → b ≠ []) →
                 (INT_MAX < Z.of_nat (length b))%Z →
                 init bits h w copy seed entropy = Raise OverflowError).
  { intros Hs Hne Hlt. rewrite (init_build bits h w b) by done.
    unfold build_tables. rewrite working_view_lookup by done. simpl.
    unfold size_as_int.
    destruct (Z.ltb_spec INT_MAX (Z.of_nat (length b))); [done | lia]. }
  assert (Hfit : seed_fits bits seed → (copy = true → b ≠ []) →
     (Z.of_nat (length b) <= INT_MAX)%Z →
     ∃ h' s, init bits h w copy seed entropy = Ok (h', s) ∧
             n s = Z.of_nat (length b) ∧
             length (alias s) = length b ∧ length (proba s) = length b).
  { intros Hs Hne Hle.
    destruct (init_invariant bits h w b copy seed entropy (λ _, True))
      as (st & final & Hwf & _ & _ & Hlen & _ & Hrun); try done.
    destruct Hwf as (_ & Hla & _).
    eexists _, _. split; [exact Hrun|]. simpl. done. }
  assert (Hcases : ¬ seed_fits bits seed ∨
                   (seed_fits bits seed ∧ copy = true ∧ b = []) ∨
                   (seed_fits bits seed ∧ (copy = true → b ≠ []))).
  { destruct Hdec as [Hs|Hs]; [|by left]. right.
    destruct copy; [|by right]. destruct b as [|x b]; [by left | by right]. }
  split; [|split; [|exact Hfit]].
  - split.
    + intros Hrun. destruct Hcases as [Hs|[Hemp|[Hs Hne]]]; [|done|].
      * rewrite init_seed_overflow in Hrun by done. done.
      * destruct (Z.lt_ge_cases INT_MAX (Z.of_nat (length b))) as [Hlt|Hle].
        -- rewrite Hbig in Hrun by done. done.
        -- destruct (Hfit Hs Hne Hle) as (h' & s & E & _).
           rewrite E in Hrun. done.
    + intros (Hs & -> & ->). by apply init_copy_empty.
  - split.
    + intros Hrun. destruct Hcases as [Hs|[(Hs & -> & ->)|[Hs Hne]]].
      * by left.
      * rewrite init_copy_empty in Hrun by done. done.
      * destruct (Z.lt_ge_cases INT_MAX (Z.of_nat (length b))) as [Hlt|Hle].
        -- by right.
        -- destruct (Hfit Hs Hne Hle) as (h' & s & E & _).
           rewrite E in Hrun. done.
    + intros [Hs|Hlt].
      * by apply init_seed_overflow.
      * destruct Hdec as [Hs|Hs]; [|by apply init_seed_overflow].
        apply Hbig; [done | | done].
        intros _ ->. unfold INT_MAX in Hlt. simpl in Hlt. lia.
Qed.

(** The witness of [init_checks_no_weight]: the weights 1, -1, copied. *)
Lemma init_checks_no_weight_witness :
  one_buffer [1; -1]%Q !! caller = Some [1; -1]%Q ∧
  ∃ h' s, init 64 (one_buffer [1; -1]%Q) caller true (Some 1%Z) 0 = Ok (h', s)
          ∧ n s = 2%Z.
Proof.
  split; [reflexivity|].
  destruct (init_checks_no_weight 64 (one_buffer [1; -1]%Q) caller [1; -1]%Q
              true (Some 1%Z) 0%Z) as (_ & _ & Hfit); [reflexivity|].
  destruct Hfit as (h' & s & Hrun & Hn & _).
  - simpl. lia.
  - intros _. discriminate.
  - unfold INT_MAX. simpl. lia.
  - exists h', s. split; [exact Hrun | exact Hn].
Defined.

(** C2, as the specification states it, fails: from the weights [1, -1],
    and from no weights at all when they are not copied, [__init__] returns
    a Sampler. *)
Lemma init_accepts_negative_weights :
  init 64 (one_buffer [1; -1]%Q) caller true (Some 1%Z) 0
    = Ok ({[ caller := [1; -1]%Q; 2%positive := [-1 # 2; -1]%Q ]},
          MkSampler 2 1 2147483646 [0; 0] [1; -2]%Q) ∧
  init 64 (one_buffer []) caller false (Some 1%Z) 0
    = Ok (one_buffer [], MkSampler 0 1 2147483646 [] []).
Proof. split; vm_compute; reflexivity. Qed.

(** ** Arithmetic of the average *)

Lemma size_positive sz : 0 < sz → (0 < inject_Z (Z.of_nat sz))%Q.
Proof. intros H. change 0%Q with (inject_Z 0). rewrite <- Zlt_Qlt. lia. Qed.

Lemma average_scale sz :
  0 < sz → (average sz * inject_Z (Z.of_nat sz) == 1)%Q.
Proof.
  intros H. pose proof (size_positive sz H) as Hpos.
  unfold average. field. intros E. rewrite E in Hpos. by apply Qlt_irrefl in Hpos.
Qed.

Lemma below_average_scaled sz x :
  0 < sz → (0 <= x)%Q → (x < average sz)%Q →
  (0 <= x * inject_Z (Z.of_nat sz))%Q ∧ (x * inject_Z (Z.of_nat sz) <= 1)%Q.
Proof.
  intros H H0 Hx. pose proof (size_positive sz H) as Hpos. split.
  - apply Qmult_le_0_compat; [done | by apply Qlt_le_weak].
  - rewrite <- (average_scale sz H). apply Qmult_le_compat_r.
    + by apply Qlt_le_weak.
    + by apply Qlt_le_weak.
Qed.

Lemma Qle_bool_false x y : Qle_bool x y = false → (y < x)%Q.
Proof.
  intros H. apply Qnot_le_lt. intros Hle.
  apply Qle_bool_iff in Hle. congruence.
Qed.

(** ** Invariants of the pairing loop *)

Lemma populate_classified (h : store) w sz b idx : ∀ sm0 lg0 sm lg,
  h !! w = Some b →
  Forall (λ i, ∃ x, b !! i = Some x ∧ (x < average sz)%Q) sm0 →
  Forall (λ i, ∃ x, b !! i = Some x ∧ (average sz <= x)%Q) lg0 →
  populate h w (average sz) idx sm0 lg0 = Ok (sm, lg) →
  Forall (λ i, ∃ x, b !! i = Some x ∧ (x < average sz)%Q) sm ∧
  Forall (λ i, ∃ x, b !! i = Some x ∧ (average sz <= x)%Q) lg.
Proof.
  induction idx as [|i idx IH]; intros sm0 lg0 sm lg Hb Hsm Hlg Hrun.
  - cbn in Hrun. by injection Hrun as <- <-.
  - cbn in Hrun. unfold load in Hrun. rewrite Hb in Hrun. unfold read in Hrun.
    destruct (b !! i) as [x|] eqn:Hx; [|done]. simpl in Hrun.
    destruct (Qle_bool (average sz) x) eqn:Hc.
    + apply (IH sm0 (push_front i lg0)); try done.
      apply Forall_app; split; [done|]. apply Forall_singleton.
      exists x. split; [done|]. by apply Qle_bool_iff.
    + apply (IH (push_front i sm0) lg0); try done.
      apply Forall_app; split; [done|]. apply Forall_singleton.
      exists x. split; [done|]. by apply Qle_bool_false.
Qed.

Lemma pair_body_classified w sz st less sm more lg st' :
  well_formed w sz st → classified w sz st →
  small st = less :: sm → large st = more :: lg →
  pair_body w sz (average sz) less more sm lg st = Ok st' →
  classified w sz st'.
Proof.
  intros Hwf (b & Hb & Hnn & Hsm & Hlg & Hnd) Es El Hrun.
  destruct (pair_body_wf w sz less more sm lg st Hwf Es El)
    as (b' & wless & wmore & st1 & Hb' & Hwl & Hwm & -> & Hrun' & _ & _).
  rewrite Hrun' in Hrun. injection Hrun as <-.
  rewrite Hb in Hb'. injection Hb' as <-.
  rewrite Es in Hsm, Hnd. rewrite El in Hlg, Hnd.
  apply Forall_cons in Hsm as [(x1 & Hx1 & Hless) Hsm].
  apply Forall_cons in Hlg as [(x2 & Hx2 & Hmore) Hlg].
  rewrite Hwl in Hx1. injection Hx1 as <-.
  rewrite Hwm in Hx2. injection Hx2 as <-.
  simpl in Hnd. apply NoDup_cons in Hnd as [_ Hnd].
  assert (Hmid : NoDup (more :: sm ++ lg)).
  { by rewrite (Permutation_middle sm lg more). }
  apply NoDup_cons in Hmid as [Hfresh Hmid].
  apply not_elem_of_app in Hfresh as [Hnsm Hnlg].
  set (x := (wmore + wless - average sz)%Q).
  assert (Hwl0 : (0 <= wless)%Q).
  { by apply (Forall_lookup_1 _ _ _ _ Hnn Hwl). }
  assert (Hx0 : (0 <= x)%Q) by (unfold x; lra).
  assert (Hkeep : ∀ (P : Q → Prop) l, more ∉ l →
            Forall (λ i, ∃ y, b !! i = Some y ∧ P y) l →
            Forall (λ i, ∃ y, <[more := x]> b !! i = Some y ∧ P y) l).
  { intros P l Hnin Hl. apply Forall_forall. intros i Hi.
    rewrite Forall_forall in Hl. destruct (Hl i Hi) as (y & Hy & HP).
    exists y. split; [|done]. rewrite list_lookup_insert_ne; [done|].
    intros ->. done. }
  assert (Hnew : <[more := x]> b !! more = Some x).
  { apply list_lookup_insert_eq. by apply (lookup_lt_Some _ _ _ Hwm). }
  exists (<[more := x]> b). simpl. split; [by rewrite lookup_insert_eq|].
  split; [by apply Forall_insert|].
  fold x. destruct (Qle_bool (average sz) x) eqn:Hc.
  - split; [by apply Hkeep|]. split.
    + unfold push_front. apply Forall_app; split; [by apply Hkeep|].
      apply Forall_singleton. exists x. split; [done|]. by apply Qle_bool_iff.
    + unfold push_front. rewrite app_assoc.
      rewrite <- Permutation_cons_append.
      apply NoDup_cons_2; [by apply not_elem_of_app | done].
  - split.
    + unfold push_front. apply Forall_app; split; [by apply Hkeep|].
      apply Forall_singleton. exists x. split; [done|]. by apply Qle_bool_false.
    + split; [by apply Hkeep|]. unfold push_front.
      rewrite <- app_assoc. simpl. rewrite <- Permutation_middle.
      apply NoDup_cons_2; [by apply not_elem_of_app | done].
Qed.

Lemma pair_body_tables_in_range w sz st less sm more lg st' :
  well_formed w sz st → classified w sz st → tables_in_range sz st →
  small st = less :: sm → large st = more :: lg →
  pair_body w sz (average sz) less more sm lg st = Ok st' →
  tables_in_range sz st'.
Proof.
  intros Hwf (b & Hb & Hnn & Hsm & Hlg & Hnd) [Hpr Hal] Es El Hrun.
  destruct (pair_body_wf w sz less more sm lg st Hwf Es El)
    as (b' & wless & wmore & st1 & Hb' & Hwl & Hwm & -> & Hrun' & _ & _).
  rewrite Hrun' in Hrun. injection Hrun as <-.
  rewrite Hb in Hb'. injection Hb' as <-.
  destruct Hwf as (_ & _ & _ & Hism & Hilg).
  rewrite Es in Hsm, Hism. rewrite El in Hilg.
  apply Forall_cons in Hsm as [(x1 & Hx1 & Hless) _].
  rewrite Hwl in Hx1. injection Hx1 as <-.
  apply Forall_cons in Hism as [Hless_lt _].
  apply Forall_cons in Hilg as [Hmore_lt _].
  split; simpl.
  - apply Forall_insert; [done|]. apply below_average_scaled; [lia | | done].
    by apply (Forall_lookup_1 _ _ _ _ Hnn Hwl).
  - by apply Forall_insert.
Qed.

(** ** Sampling leaves the tables alone *)

Lemma same_tables_refl s : same_tables s s.
Proof. by unfold same_tables. Qed.

Lemma same_tables_trans s1 s2 s3 :
  same_tables s1 s2 → same_tables s2 s3 → same_tables s1 s3.
Proof. unfold same_tables. intros (-> & -> & -> & ->) (-> & -> & -> & ->). done. Qed.

Lemma sample_1_same_tables bits s x s' :
  sample_1 bits s = Ok (x, s') → same_tables s s'.
Proof.
  unfold sample_1, fair_die, coin_toss, draw. simpl. intros H.
  destruct (read_int (proba s) _) as [p| | |]; simpl in H; try done.
  destruct (coin_of _ _ _).
  - injection H as _ <-. by unfold same_tables.
  - destruct (read_int (alias s) _); simpl in H; try done.
    injection H as _ <-. by unfold same_tables.
Qed.

Lemma sample_k_loop_S bits k i samples s :
  sample_k_loop bits (S k) i samples s =
    '(x, s') ← sample_1 bits s;
    samples' ← write samples i x;
    sample_k_loop bits k (S i) samples' s'.
Proof. reflexivity. Qed.

Lemma sample_k_from_loop_S bits k i out values s :
  sample_k_from_loop bits (S k) i out values s =
    '(x, s') ← sample_1 bits s;
    v ← read_int values x;
    out' ← write out i v;
    sample_k_from_loop bits k (S i) out' values s'.
Proof. reflexivity. Qed.

Lemma sample_k_loop_same_tables bits k : ∀ i samples s xs s',
  sample_k_loop bits k i samples s = Ok (xs, s') → same_tables s s'.
Proof.
  induction k as [|k IH]; intros i samples s xs s' H.
  - injection H as _ <-. apply same_tables_refl.
  - rewrite sample_k_loop_S in H. destruct (sample_1 bits s) as [[x s1]| | |] eqn:H1; simpl in H; try done.
    destruct (write samples i x) as [samples'| | |]; simpl in H; try done.
    eapply same_tables_trans; [by eapply sample_1_same_tables | by eapply IH].
Qed.

Lemma sample_k_from_loop_same_tables bits values k : ∀ i out s xs s',
  sample_k_from_loop bits k i out values s = Ok (xs, s') → same_tables s s'.
Proof.
  induction k as [|k IH]; intros i out s xs s' H.
  - injection H as _ <-. apply same_tables_refl.
  - rewrite sample_k_from_loop_S in H. destruct (sample_1 bits s) as [[x s1]| | |] eqn:H1; simpl in H; try done.
    destruct (read_int values x) as [v| | |]; simpl in H; try done.
    destruct (write out i v) as [out'| | |]; simpl in H; try done.
    eapply same_tables_trans; [by eapply sample_1_same_tables | by eapply IH].
Qed.

Lemma sample_same_tables bits s k values r s' :
  sample bits s k values = Ok (r, s') → same_tables s s'.
Proof.
  unfold sample, sample_k, sample_k_from, np_zeros. intros H.
  destruct values as [vs|]; destruct (k =? 1)%Z.
  - destruct (sample_1 bits s) as [[x s1]| | |] eqn:H1; simpl in H; try done.
    destruct (py_getitem vs x); simpl in H; try done.
    injection H as _ <-. by eapply sample_1_same_tables.
  - destruct (as_int k) as [k'| | |]; simpl in H; try done.
    destruct (k' <? 0)%Z; simpl in H; [done|].
    destruct (sample_k_from_loop _ _ _ _ _ _) as [[xs s1]| | |] eqn:H1;
      simpl in H; try done.
    injection H as _ <-. by eapply sample_k_from_loop_same_tables.
  - destruct (sample_1 bits s) as [[x s1]| | |] eqn:H1; simpl in H; try done.
    injection H as _ <-. by eapply sample_1_same_tables.
  - destruct (as_int k) as [k'| | |]; simpl in H; try done.
    destruct (k' <? 0)%Z; simpl in H; [done|].
    destruct (sample_k_loop _ _ _ _ _) as [[xs s1]| | |] eqn:H1;
      simpl in H; try done.
    injection H as _ <-. by eapply sample_k_loop_same_tables.
Qed.

(** ** The tables of a Sampler *)

Lemma initial_classified (h : store) w b sm lg :
  h !! w = Some b → nonnegative b →
  populate h w (average (length b)) (seq 0 (length b)) [] [] = Ok (sm, lg) →
  sm ++ lg ≡ₚ seq 0 (length b) →
  classified w (length b)
    (TState h (replicate (length b) 0) (replicate (length b) 0%Q) sm lg).
Proof.
  intros Hb Hnn Hpop Hperm.
  destruct (populate_classified h w (length b) b (seq 0 (length b)) [] [] sm lg Hb)
    as [Hsm Hlg]; try done.
  exists b. simpl. repeat (split; [done|]). rewrite Hperm. apply NoDup_seq.
Qed.

Lemma initial_tables_in_range sz sm lg (h : store) :
  tables_in_range sz (TState h (replicate sz 0) (replicate sz 0%Q) sm lg).
Proof.
  split; simpl.
  - apply Forall_replicate. split; lra.
  - apply Forall_forall. intros a Ha. apply elem_of_replicate in Ha as [-> Hne]. lia.
Qed.

(** C8: after construction from non-negative weights, every entry of
    [proba] lies in [0, 1], every entry of [alias] is an index below [n], both
    tables have [n] entries, and no call of [sample] (hence of [sample_1],
    [sample_k] or [sample_k_from]), on this Sampler or on a later state of it,
    changes either table. *)
Theorem tables_in_range_and_frozen bits (h : store) w b copy seed entropy :
  h !! w = Some b → seed_fits bits seed → (copy = true → b ≠ []) →
  (Z.of_nat (length b) <= INT_MAX)%Z → nonnegative b →
  ∃ h' s,
    init bits h w copy seed entropy = Ok (h', s) ∧
    n s = Z.of_nat (length b) ∧
    length (proba s) = length b ∧ length (alias s) = length b ∧
    unit_interval (proba s) ∧
    Forall (λ a, a < length b) (alias s) ∧
    ∀ bits' s0 k values r s',
      alias s0 = alias s → proba s0 = proba s →
      sample bits' s0 k values = Ok (r, s') →
      alias s' = alias s ∧ proba s' = proba s.
Proof.
  intros Hb Hseed Hne Hfit Hnn.
  destruct (init_invariant bits h w b copy seed entropy
              (λ st, classified (working_view h w b copy).2 (length b) st ∧
                     tables_in_range (length b) st))
    as (st & final & Hwf & [Hcl [Hpr Hal]] & Hexit & Hlen & Hfinal & Hrun);
    try done.
  - intros sm lg Hpop Hperm. split; [|apply initial_tables_in_range].
    apply initial_classified; try done. by apply working_view_lookup.
  - intros st less sm more lg st' Hwf [Hcl Htr] Es El Hbody. split.
    + by eapply pair_body_classified.
    + by eapply pair_body_tables_in_range.
  - destruct Hwf as (_ & Hla & Hlp & _).
    eexists _, _. split; [exact Hrun|]. simpl.
    repeat (split; [done|]). split; [|split; [done|]].
    + apply Forall_lookup. intros i x Hx.
      destruct (decide (i ∈ small st ++ large st)) as [Hin|Hnin].
      * destruct (Hfinal i) as [Hone _]. rewrite Hone in Hx by done.
        injection Hx as <-. split; lra.
      * destruct (Hfinal i) as [_ Hsame]. rewrite Hsame in Hx by done.
        by apply (Forall_lookup_1 _ _ _ _ Hpr Hx).
    + intros bits' s0 k values r s' Ea Ep Hs.
      destruct (sample_same_tables bits' s0 k values r s' Hs) as (_ & _ & -> & ->).
      done.
Qed.

(** The witness of [tables_in_range_and_frozen]: the weights 1/4, 3/4. *)
Lemma tables_in_range_and_frozen_witness :
  ∃ h' s,
    init 64 (one_buffer [1 # 4; 3 # 4]%Q) caller true (Some 1%Z) 0 = Ok (h', s) ∧
    unit_interval (proba s) ∧ Forall (λ a, a < 2) (alias s).
Proof.
  destruct (tables_in_range_and_frozen 64 (one_buffer [1 # 4; 3 # 4]%Q) caller
              [1 # 4; 3 # 4]%Q true (Some 1%Z) 0%Z)
    as (h' & s & Hrun & _ & _ & _ & Hpr & Hal & _).
  - reflexivity.
  - simpl. lia.
  - intros _. discriminate.
  - unfold INT_MAX. simpl. lia.
  - repeat constructor; unfold Qle; simpl; lia.
  - by exists h', s.
Defined.

(** ** The die and the coin *)

Lemma next_range g : (0 <= minstd_rand.next g <= minstd_rand.max)%Z.
Proof.
  unfold minstd_rand.next, minstd_rand.max.
  pose proof (Z.mod_pos_bound (minstd_rand.multiplier * g) minstd_rand.modulus) as H.
  unfold minstd_rand.modulus in *. lia.
Qed.

Lemma to_int_small z : (0 <= z < 2 ^ 31)%Z → to_int z = z.
Proof.
  intros H. unfold to_int. rewrite Z.mod_small; lia.
Qed.

Lemma to_unsigned_small bits z :
  (32 <= bits)%Z → (0 <= z < 2 ^ 31)%Z → to_unsigned bits z = z.
Proof.
  intros Hb Hz. unfold to_unsigned. apply Z.mod_small.
  assert (2 ^ 31 < 2 ^ bits)%Z by (apply Z.pow_lt_mono_r; lia). lia.
Qed.

(** Without overflow the die is the scaled draw. *)
Lemma die_of_exact bits d k :
  (32 <= bits)%Z → (0 <= d)%Z → (0 <= k <= INT_MAX)%Z → (d * k < 2 ^ bits)%Z →
  die_of bits minstd_rand.max d k = to_int (d * k / (minstd_rand.max + 1)).
Proof.
  intros Hb Hd Hk Hfit. unfold die_of. unfold INT_MAX in Hk.
  rewrite (to_unsigned_small bits k) by lia.
  change (minstd_rand.max + 1)%Z with 2147483647%Z.
  rewrite (to_int_small 2147483647) by lia.
  rewrite (to_unsigned_small bits 2147483647) by lia.
  unfold to_unsigned at 1. rewrite Z.mod_small by nia. done.
Qed.

(** With or without overflow the die shows a face. *)
Lemma die_of_range bits d k :
  (32 <= bits)%Z → (0 <= d <= minstd_rand.max)%Z → (1 <= k <= INT_MAX)%Z →
  (0 <= die_of bits minstd_rand.max d k < k)%Z.
Proof.
  intros Hb Hd Hk. unfold die_of. unfold INT_MAX in Hk.
  unfold minstd_rand.max, minstd_rand.modulus in Hd.
  rewrite (to_unsigned_small bits k) by lia.
  change (minstd_rand.max + 1)%Z with 2147483647%Z.
  rewrite (to_int_small 2147483647) by lia.
  rewrite (to_unsigned_small bits 2147483647) by lia.
  unfold to_unsigned.
  assert (Hpow : (0 < 2 ^ bits)%Z) by (apply Z.pow_pos_nonneg; lia).
  pose proof (Z.mod_pos_bound (d * k) (2 ^ bits) Hpow) as Hm.
  assert (Hle : ((d * k) mod 2 ^ bits <= d * k)%Z) by (apply Z.mod_le; nia).
  assert (Hq : (0 <= (d * k) mod 2 ^ bits / 2147483647 < k)%Z).
  { split; [apply Z.div_pos; lia|]. apply Z.div_lt_upper_bound; nia. }
  rewrite to_int_small; lia.
Qed.

(** ** [sample_1] *)

Lemma init_table_ok bits (h : store) w b copy seed entropy h' s :
  h !! w = Some b → 1 ≤ length b →
  init bits h w copy seed entropy = Ok (h', s) → table_ok s.
Proof.
  intros Hb Hpos Hrun.
  pose proof (init_returns_fits _ _ _ _ _ _ _ Hrun) as Hseed.
  pose proof (nonempty_copy b copy Hpos) as Hne.
  destruct (Z.lt_ge_cases INT_MAX (Z.of_nat (length b))) as [Hlt|Hle].
  { rewrite (init_build bits h w b) in Hrun by done. unfold build_tables in Hrun.
    rewrite working_view_lookup in Hrun by done. simpl in Hrun.
    unfold size_as_int in Hrun.
    destruct (Z.ltb_spec INT_MAX (Z.of_nat (length b))); [done | lia]. }
  destruct (init_invariant bits h w b copy seed entropy
              (λ st, Forall (λ a, a < length b) (t_alias st)))
    as (st & final & Hwf & Hal & _ & Hlen & _ & Hrun'); try done.
  - intros sm lg _ _. apply initial_tables_in_range.
  - intros st less sm more lg st' Hwf Hal Es El Hbody.
    destruct (pair_body_wf _ _ less more sm lg st Hwf Es El)
      as (b' & wless & wmore & st1 & _ & _ & _ & -> & Hrun' & _ & _).
    rewrite Hrun' in Hbody. injection Hbody as <-. simpl.
    apply Forall_insert; [done|].
    destruct Hwf as (_ & _ & _ & _ & Hlg). rewrite El in Hlg.
    by apply Forall_cons in Hlg as [? _].
  - rewrite Hrun' in Hrun. injection Hrun as _ <-.
    destruct Hwf as (_ & Hla & _).
    unfold table_ok. simpl. rewrite Hlen, Hla.
    split; [lia|]. split; [done|]. split; [done|]. split; [done|].
    eapply Forall_impl; [exact Hal|]. simpl. intros a Ha. lia.
Qed.

Lemma constructed_table_ok s : constructed s → table_ok s.
Proof.
  induction 1 as [bits h w b copy seed entropy h' s Hb Hpos Hrun | s g _ IH].
  - by eapply init_table_ok.
  - exact IH.
Qed.



(** ** The boundaries of the coin *)

Lemma f32_mul_zero m : f32_not_positive (f32_mul m (f32_of_Q 0)).
Proof.
  change (f32_of_Q 0) with (Finite (round32 0)).
  assert (E : (round32 0 == 0)%Q) by (vm_compute; reflexivity).
  destruct m as [x|s|]; [| |done].
  - change (f32_mul (Finite x) (Finite (round32 0)))
      with (f32_of_Q (x * round32 0)).
    apply f32_of_Q_not_positive. rewrite E. lra.
  - change (f32_mul (Infinity s) (Finite (round32 0)))
      with (if Qeq_bool (round32 0) 0 then NaN
            else Infinity (xorb s (negative (round32 0)))).
    apply Qeq_bool_iff in E. by rewrite E.
Qed.

(** [coin_toss(p)] with [p <= 0] is tails. *)
Lemma coin_of_not_positive mx d p :
  (0 <= mx)%Z → (0 <= d)%Z → (p <= 0)%Q → coin_of mx d p = false.
Proof.
  intros Hmx Hd Hp. unfold coin_of, f32_of_Z.
  apply f32_lt_not_positive.
  - apply f32_of_Q_nonneg. change 0%Q with (inject_Z 0). by rewrite <- Zle_Qle.
  - apply f32_mul_not_positive; [|by apply f32_of_Q_not_positive].
    apply f32_of_Q_nonneg. change 0%Q with (inject_Z 0). by rewrite <- Zle_Qle.
Qed.

Lemma coin_of_heads_positive mx d p :
  (0 <= mx)%Z → (0 <= d)%Z → coin_of mx d p = true → (0 < p)%Q.
Proof.
  intros Hmx Hd H. apply Qnot_le_lt. intros Hp.
  by rewrite coin_of_not_positive in H.
Qed.

(** [coin_toss] is monotone in [p]. *)
Lemma coin_of_mono mx d p q :
  (0 <= mx)%Z → (0 <= d)%Z → (p <= q)%Q →
  coin_of mx d p = true → coin_of mx d q = true.
Proof.
  intros Hmx Hd Hpq H. unfold coin_of in *.
  assert (Hm : f32_nonneg (f32_of_Z mx)).
  { apply f32_of_Q_nonneg. change 0%Q with (inject_Z 0). by rewrite <- Zle_Qle. }
  assert (Hdn : f32_nonneg (f32_of_Z d)).
  { apply f32_of_Q_nonneg. change 0%Q with (inject_Z 0). by rewrite <- Zle_Qle. }
  destruct (f32_mul_mono (f32_of_Z mx) (f32_of_Q p) (f32_of_Q q) Hm
              (f32_of_Q_mono p q Hpq)) as [Hnp|Hle].
  - rewrite (f32_lt_not_positive _ _ Hdn Hnp) in H. done.
  - by apply (f32_lt_le_trans _ _ _ H Hle).
Qed.

Lemma round32_below_2p31 : (round32 (inject_Z 2147483583) == inject_Z 2147483520)%Q.
Proof. vm_compute. reflexivity. Qed.

Lemma round32_2p31 : (round32 (inject_Z 2147483584) == inject_Z 2147483648)%Q.
Proof. vm_compute. reflexivity. Qed.

Lemma threshold_one :
  f32_mul (f32_of_Z 2147483646) (f32_of_Q 1) = Finite (inject_Z 2147483648).
Proof. vm_compute. reflexivity. Qed.

(** With [maxi] the engine's maximum, [coin_toss(1)] is heads exactly for
    the draws below 2147483584: the others are rounded to [2^31], as [maxi]
    is. *)
Lemma coin_of_one d :
  (0 <= d)%Z →
  coin_of 2147483646 d 1 = bool_decide (d < 2147483584)%Z.
Proof.
  intros Hd. unfold coin_of. rewrite threshold_one. unfold f32_of_Z.
  assert (H0 : (0 <= round32 (inject_Z d))%Q).
  { apply round32_nonneg. change 0%Q with (inject_Z 0). by rewrite <- Zle_Qle. }
  pose proof (pow2_pos 128) as Hpos.
  destruct (decide (d < 2147483584)%Z) as [Hlt|Hge].
  - rewrite bool_decide_eq_true_2 by done.
    assert (Hr : (round32 (inject_Z d) <= inject_Z 2147483520)%Q).
    { rewrite <- round32_below_2p31. apply round32_mono.
      rewrite <- Zle_Qle. lia. }
    assert (Hs : (inject_Z 2147483520 < inject_Z 2147483648)%Q).
    { rewrite <- Zlt_Qlt. lia. }
    destruct (f32_of_Q_cases (inject_Z d)) as [(-> & _)|[(-> & ?)|(-> & Hbig)]];
      simpl.
    + apply negb_true_iff. destruct (Qle_bool _ _) eqn:E; [|done].
      apply Qle_bool_iff in E. lra.
    + done.
    + exfalso. assert ((inject_Z 2147483520 < 2 ^ 128)%Q) by (vm_compute; reflexivity).
      lra.
  - rewrite bool_decide_eq_false_2 by done.
    assert (Hr : (inject_Z 2147483648 <= round32 (inject_Z d))%Q).
    { rewrite <- round32_2p31. apply round32_mono. rewrite <- Zle_Qle. lia. }
    destruct (f32_of_Q_cases (inject_Z d)) as [(-> & _)|[(-> & ?)|(-> & Hbig)]];
      simpl.
    + apply negb_false_iff. by apply Qle_bool_iff.
    + exfalso. lra.
    + done.
Qed.

Lemma coin_of_zero mx d : (0 <= d)%Z → coin_of mx d 0 = false.
Proof.
  intros Hd. unfold coin_of. apply f32_lt_not_positive.
  - apply f32_of_Q_nonneg. change 0%Q with (inject_Z 0). by rewrite <- Zle_Qle.
  - apply f32_mul_zero.
Qed.

(** [coin_toss(0)] is tails in every state of the engine. *)
Lemma coin_toss_zero s : (coin_toss s 0).1 = false.
Proof.
  unfold coin_toss, draw. simpl. apply coin_of_zero. apply next_range.
Qed.

(** [coin_toss(1)] is heads unless the engine draws one of its 63 greatest
    values, 2147483584 to 2147483646. *)
Lemma coin_toss_one s :
  maxi s = minstd_rand.max →
  (coin_toss s 1).1
  = bool_decide (minstd_rand.next (generator s) < 2147483584)%Z.
Proof.
  intros Hmx. unfold coin_toss, draw. simpl. rewrite Hmx.
  apply coin_of_one. apply next_range.
Qed.

(** C3, at the boundary [p = 1]: when the engine draws its maximum,
    [coin_toss(1)] is tails.  The Sampler of nine equal weights seeded with
    1922112213 rolls the column 1, whose probability is 1, tosses tails on the
    draw 2147483646 and returns the alias 0 that was never set. *)
Theorem coin_toss_one_is_tails_at_max :
  ∃ s s1 s2,
    Sampler_of 64 (replicate 9 (1 # 9)%Q) 1922112213 = Ok s ∧
    fair_die 64 s (n s) = (1%Z, s1) ∧
    proba s1 !! 1 = Some 1%Q ∧
    generator s2 = maxi s1 ∧
    coin_toss s1 1 = (false, s2) ∧
    sample_1 64 s = Ok (0%Z, s2).
Proof.
  eexists _, _, _. split; [vm_compute; reflexivity|].
  split; [vm_compute; reflexivity|].
  split; [reflexivity|]. split; [|split; vm_compute; reflexivity].
  reflexivity.
Qed.

(** ** The die in a narrow result type *)

(** C4, where the result type has 32 bits: the product of the draw
    2147483646 and [n = 3] wraps, and [fair_die(3)] is 0 where
    [floor(draw * n / (MAX + 1))] is 2, the value a 64-bit type gives. *)
Theorem fair_die_wraps_in_32_bits :
  ∃ s s1,
    Sampler_of 32 (replicate 3 (1 # 3)%Q) 247665088 = Ok s ∧
    draw s = (2147483646%Z, s1) ∧
    fair_die 32 s 3 = (0%Z, s1) ∧
    (2147483646 * 3 / (maxi s + 1) = 2)%Z ∧
    fair_die 64 s 3 = (2%Z, s1).
Proof.
  eexists _, _. split; [vm_compute; reflexivity|].
  repeat split; vm_compute; reflexivity.
Qed.

(** ** Batches of draws *)

Lemma draws_S bits k s :
  draws bits (S k) s =
    '(x, s1) ← sample_1 bits s;
    '(xs, s2) ← draws bits k s1;
    Ok (x :: xs, s2).
Proof. reflexivity. Qed.

Lemma splice_step {A} (l : list A) i k x xs :
  i < length l →
  take (S i) (<[i := x]> l) ++ xs ++ drop (S i + k) (<[i := x]> l)
  = take i l ++ (x :: xs) ++ drop (i + S k) l.
Proof.
  intros Hi.
  rewrite (take_S_r _ i x) by (by apply list_lookup_insert_eq).
  rewrite take_insert_ge by lia. rewrite drop_insert_lt by lia.
  rewrite <- app_assoc. simpl. by rewrite Nat.add_succ_r.
Qed.

(** [sample_k]'s loop fills the slots [i .. i+k-1] with the indices drawn. *)
Lemma sample_k_loop_draws bits k : ∀ i samples s,
  i + k ≤ length samples →
  sample_k_loop bits k i samples s =
    '(xs, s') ← draws bits k s;
    Ok (take i samples ++ xs ++ drop (i + k) samples, s').
Proof.
  induction k as [|k IH]; intros i samples s Hlen.
  - simpl. rewrite Nat.add_0_r. by rewrite take_drop.
  - rewrite sample_k_loop_S, draws_S.
    destruct (sample_1 bits s) as [[x s1]| | |]; simpl; try done.
    rewrite write_lt by lia. simpl.
    rewrite IH by (rewrite length_insert; lia).
    destruct (draws bits k s1) as [[xs s2]| | |]; try done.
    unfold mbind, outcome_bind. cbv beta iota.
    rewrite splice_step by lia. done.
Qed.

(** [sample_k_from]'s loop fills them with the values at those indices, as
    long as every index drawn falls inside [values]. *)
Lemma sample_k_from_loop_draws bits values k : ∀ i out s xs s',
  i + k ≤ length out →
  draws bits k s = Ok (xs, s') →
  Forall (λ x, (0 <= x < Z.of_nat (length values))%Z) xs →
  ∃ vs, gathered values xs vs ∧
        sample_k_from_loop bits k i out values s =
          Ok (take i out ++ vs ++ drop (i + k) out, s').
Proof.
  induction k as [|k IH]; intros i out s xs s' Hlen Hd Hin.
  - injection Hd as <- <-. exists []. split; [constructor|].
    simpl. rewrite Nat.add_0_r. by rewrite take_drop.
  - rewrite draws_S in Hd. rewrite sample_k_from_loop_S.
    destruct (sample_1 bits s) as [[x s1]| | |]; simpl in *; try done.
    destruct (draws bits k s1) as [[xs1 s2]| | |] eqn:Hd1; simpl in *; try done.
    injection Hd as <- <-. apply Forall_cons in Hin as [Hx Hin].
    destruct (lookup_lt_is_Some_2 values (Z.to_nat x)) as [v Hv]; [lia|].
    unfold read_int. destruct (Z.ltb_spec x 0); [lia|].
    rewrite (read_lookup _ _ _ Hv). simpl. rewrite write_lt by lia. simpl.
    destruct (IH (S i) (<[i := v]> out) s1 xs1 s2) as (vs & Hg & Hrun); try done.
    { rewrite length_insert. lia. }
    exists (v :: vs). split.
    + constructor; [split; [lia | done] | done].
    + rewrite Hrun. rewrite splice_step by lia. done.
Qed.

Lemma sample_k_draws bits s k :
  (0 <= k)%Z →
  sample_k bits s k = draws bits (Z.to_nat k) s.
Proof.
  intros Hk. unfold sample_k, np_zeros.
  destruct (Z.ltb_spec k 0); [lia|]. simpl.
  rewrite sample_k_loop_draws by (rewrite length_replicate; lia).
  destruct (draws bits (Z.to_nat k) s) as [[xs s']| | |] eqn:Hd; try done.
  unfold mbind, outcome_bind. cbv beta iota.
  rewrite take_0, drop_ge by (rewrite length_replicate; lia).
  simpl. by rewrite app_nil_r.
Qed.

(** ** [sample] with values *)

Lemma sample_1_raises_nothing bits s e : sample_1 bits s ≠ Raise e.
Proof.
  unfold sample_1, fair_die, coin_toss, draw. simpl.
  destruct (read_int (proba s) _) as [p| | |] eqn:Hp; simpl; try done.
  - destruct (coin_of _ _ _); [done|].
    destruct (read_int (alias s) _) as [a| | |] eqn:Ha; simpl; try done.
    unfold read_int, read in Ha.
    destruct (_ <? 0)%Z; [done|]. by destruct (alias s !! _).
  - unfold read_int, read in Hp.
    destruct (_ <? 0)%Z; [done|]. by destruct (proba s !! _).
Qed.

Lemma sample_k_from_loop_raises_nothing bits values k : ∀ i out s e,
  sample_k_from_loop bits k i out values s ≠ Raise e.
Proof.
  induction k as [|k IH]; intros i out s e; [done|].
  rewrite sample_k_from_loop_S.
  pose proof (sample_1_raises_nothing bits s) as H1.
  destruct (sample_1 bits s) as [[x s1]|e1| |]; simpl; try done.
  - unfold read_int, read. destruct (x <? 0)%Z; [done|].
    destruct (values !! Z.to_nat x) as [v|]; simpl; [|done].
    unfold write. case_decide; simpl; [apply IH | done].
  - by destruct (H1 e1).
Qed.

Lemma as_int_cases k : as_int k = Ok k ∨ as_int k = Raise OverflowError.
Proof. unfold as_int. destruct (_ || _); [by right | by left]. Qed.

Lemma as_int_fits k : (- 2 ^ 31 <= k <= INT_MAX)%Z → as_int k = Ok k.
Proof.
  intros Hk. unfold as_int.
  destruct (Z.ltb_spec k (- 2 ^ 31)); [lia|].
  destruct (Z.ltb_spec INT_MAX k); [lia|]. done.
Qed.

(** C5, as the code has it: [sample] never compares the length of [values]
    with [n].  Whatever that length is, when the indices a call draws all fall
    inside [values] the call returns the values at those indices, in order,
    and leaves the Sampler as the same call without [values] does: this for
    [k = 1] (one value) and for every other [k >= 0] (an array).  For
    [k] other than 1 no outcome of the call is an [OutOfRange]. *)
Theorem sample_values_is_unchecked bits s k values :
  (0 <= k)%Z →
  (k ≠ 1%Z → sample bits s k (Some values) ≠ Raise OutOfRange) ∧
  (k = 1%Z → ∀ x s',
     sample bits s k None = Ok (PyInt x, s') →
     (0 <= x < Z.of_nat (length values))%Z →
     ∃ v, values !! Z.to_nat x = Some v ∧
          sample bits s k (Some values) = Ok (PyFloat v, s')) ∧
  (k ≠ 1%Z → ∀ xs s',
     sample bits s k None = Ok (IntArray xs, s') →
     Forall (λ x, (0 <= x < Z.of_nat (length values))%Z) xs →
     ∃ vs, gathered values xs vs ∧
           sample bits s k (Some values) = Ok (FloatArray vs, s')).
Proof.
  intros Hk. split; [|split].
  - intros Hne. unfold sample. destruct (Z.eqb_spec k 1); [done|].
    destruct (as_int_cases k) as [-> | ->]; [|done].
    unfold mbind at 1, outcome_bind at 1. cbv beta iota.
    unfold sample_k_from, np_zeros. destruct (Z.ltb_spec k 0); [lia|]. simpl.
    pose proof (sample_k_from_loop_raises_nothing bits values (Z.to_nat k) 0
                  (replicate (Z.to_nat k) 0%Q) s) as Hno.
    destruct (sample_k_from_loop _ _ _ _ _ _) as [[xs s']|e| |]; simpl; try done.
    by destruct (Hno e).
  - intros -> x s' Hrun Hx. simpl in Hrun. simpl.
    destruct (sample_1 bits s) as [[x1 s1]| | |]; simpl in *; try done.
    injection Hrun as <- <-.
    destruct (lookup_lt_is_Some_2 values (Z.to_nat x1)) as [v Hv]; [lia|].
    exists v. split; [done|]. unfold py_getitem.
    destruct (Z.ltb_spec x1 0); [lia|]. destruct (Z.ltb_spec x1 0); [lia|].
    by rewrite Hv.
  - intros Hne xs s' Hrun Hin. unfold sample in *.
    destruct (Z.eqb_spec k 1); [done|].
    destruct (as_int_cases k) as [E | E]; rewrite E in *; [|done].
    unfold mbind at 1, outcome_bind at 1 in Hrun.
    unfold mbind at 1, outcome_bind at 1. cbv beta iota in *.
    rewrite sample_k_draws in Hrun by done.
    destruct (draws bits (Z.to_nat k) s) as [[xs1 s1]| | |] eqn:Hd;
      simpl in Hrun; try done.
    injection Hrun as <- <-.
    unfold sample_k_from, np_zeros. destruct (Z.ltb_spec k 0); [lia|]. simpl.
    destruct (sample_k_from_loop_draws bits values (Z.to_nat k) 0
                (replicate (Z.to_nat k) 0%Q) s xs1 s1)
      as (vs & Hg & Hloop); try done.
    { rewrite length_replicate. lia. }
    exists vs. split; [done|]. rewrite Hloop.
    unfold mbind, outcome_bind. cbv beta iota.
    rewrite take_0, drop_ge by (rewrite length_replicate; lia).
    simpl. by rewrite app_nil_r.
Qed.

(** The witness of [sample_values_is_unchecked]: two weights, one value,
    five draws. *)
Lemma sample_values_is_unchecked_witness :
  ∃ vs s',
    sample 64 (MkSampler 2 20 2147483646 [0; 0] [1; 1]%Q) 5 (Some [7%Q])
      = Ok (FloatArray vs, s') ∧
    gathered [7%Q] [0; 0; 0; 0; 0]%Z vs.
Proof.
  destruct (sample_values_is_unchecked 64
              (MkSampler 2 20 2147483646 [0; 0] [1; 1]%Q) 5 [7%Q])
    as (_ & _ & Hmany); [lia|].
  destruct (Hmany ltac:(lia) [0; 0; 0; 0; 0]%Z
              (MkSampler 2 1868845562 2147483646 [0; 0] [1; 1]%Q))
    as (vs & Hg & Hrun).
  - vm_compute. reflexivity.
  - repeat constructor; simpl; lia.
  - exists vs, (MkSampler 2 1868845562 2147483646 [0; 0] [1; 1]%Q).
    split; [exact Hrun | exact Hg].
Defined.

(** C5, as the specification states it, fails: with two weights and a single
    value, a call that draws the index 0 five times returns five values, and
    a call that draws the index 1 reads outside the buffer; neither raises
    [OutOfRange]. *)
Lemma sample_values_short_buffer :
  (∃ s s',
     Sampler_of 64 [1 # 2; 1 # 2]%Q 20 = Ok s ∧ n s = 2%Z ∧
     sample 64 s 5 (Some [7%Q]) = Ok (FloatArray [7; 7; 7; 7; 7]%Q, s')) ∧
  (∃ s,
     Sampler_of 64 [1 # 2; 1 # 2]%Q 1 = Ok s ∧ n s = 2%Z ∧
     sample 64 s 5 None = Ok (IntArray [0; 1; 1; 1; 0]%Z,
                              with_generator s 1596680831) ∧
     sample 64 s 5 (Some [7%Q]) = Undefined).
Proof.
  split.
  - eexists _, _. split; [vm_compute; reflexivity|].
    split; [reflexivity|]. vm_compute. reflexivity.
  - eexists. split; [vm_compute; reflexivity|].
    split; [reflexivity|]. split; vm_compute; reflexivity.
Qed.


(** ** Two runs of the construction *)

Lemma load_same_view (h1 h2 : store) w1 w2 i :
  h1 !! w1 = h2 !! w2 → load h1 w1 i = load h2 w2 i.
Proof. intros H. unfold load. by rewrite H. Qed.

Lemma populate_same_view (h1 h2 : store) w1 w2 avg idx : ∀ sm lg,
  h1 !! w1 = h2 !! w2 →
  populate h1 w1 avg idx sm lg = populate h2 w2 avg idx sm lg.
Proof.
  induction idx as [|i idx IH]; intros sm lg H; [done|].
  cbn. rewrite (load_same_view h1 h2 w1 w2 i H).
  destruct (load h2 w2 i); simpl; try done.
  destruct (Qle_bool avg a); by apply IH.
Qed.

Lemma pair_body_same_view w1 w2 sz avg less more sm lg st1 st2 :
  same_view w1 w2 st1 st2 →
  outcome_rel (same_view w1 w2)
    (pair_body w1 sz avg less more sm lg st1)
    (pair_body w2 sz avg less more sm lg st2).
Proof.
  intros (Hs & Ha & Hp & _ & _). unfold pair_body, load, store_at.
  rewrite Hs, Ha, Hp.
  destruct (t_store st2 !! w2) as [b|]; simpl; [|done].
  destruct (read b less) as [wless| | |]; simpl; try done.
  destruct (write (t_proba st2) less _) as [proba'| | |]; simpl; try done.
  destruct (write (t_alias st2) less more) as [alias'| | |]; simpl; try done.
  destruct (read b more) as [wmore| | |]; simpl; try done.
  destruct (write b more _) as [b'| | |]; simpl; try done.
  rewrite !lookup_insert_eq.
  destruct (read b' more) as [wnew| | |]; simpl; try done.
  destruct (Qle_bool avg wnew); simpl; unfold same_view; simpl;
    by rewrite !lookup_insert_eq.
Qed.

Lemma pair_loop_same_view w1 w2 sz avg fuel : ∀ st1 st2,
  same_view w1 w2 st1 st2 →
  outcome_rel (same_view w1 w2)
    (pair_loop fuel w1 sz avg st1) (pair_loop fuel w2 sz avg st2).
Proof.
  induction fuel as [|fuel IH]; intros st1 st2 Hv;
    pose proof Hv as (_ & _ & _ & Hsm & Hlg); cbn; rewrite Hsm, Hlg.
  - destruct (small st2); [done|]. destruct (large st2); done.
  - destruct (small st2) as [|less sm]; [done|].
    destruct (large st2) as [|more lg]; [done|].
    pose proof (pair_body_same_view w1 w2 sz avg less more sm lg st1 st2 Hv) as Hb.
    destruct (pair_body w1 sz avg less more sm lg st1),
             (pair_body w2 sz avg less more sm lg st2); simpl in *; try done.
    by apply IH.
Qed.

(** The tables, and the weights left in the working buffer, depend on the
    contents of the buffer only, not on where it is stored. *)
Lemma build_tables_same_view (h1 h2 : store) w1 w2 :
  h1 !! w1 = h2 !! w2 →
  outcome_rel (λ r1 r2, r1.1 = r2.1 ∧ same_view w1 w2 r1.2 r2.2)
    (build_tables h1 w1) (build_tables h2 w2).
Proof.
  intros H. unfold build_tables. rewrite H.
  destruct (h2 !! w2) as [b|] eqn:Hb; simpl; [|done].
  destruct (size_as_int b) as [sz| | |]; simpl; try done.
  rewrite (populate_same_view h1 h2 w1 w2) by congruence.
  destruct (populate h2 w2 _ _ _ _) as [[sm lg]| | |]; simpl; try done.
  pose proof (pair_loop_same_view w1 w2 sz (average sz) sz
                (TState h1 (replicate sz 0) (replicate sz 0%Q) sm lg)
                (TState h2 (replicate sz 0) (replicate sz 0%Q) sm lg)) as Hl.
  assert (Hl' := Hl ltac:(unfold same_view; simpl; repeat split; congruence)).
  clear Hl.
  destruct (pair_loop sz w1 _ _ _) as [st1| | |],
           (pair_loop sz w2 _ _ _) as [st2| | |]; simpl in *; try done.
  destruct Hl' as (Hs & Ha & Hp & Hsm & Hlg).
  rewrite Hsm, Hlg, Hp.
  destruct (drain (small st2) (t_proba st2)) as [p1| | |]; simpl; try done.
  destruct (drain (large st2) p1) as [p2| | |]; simpl; done.
Qed.

Lemma init_same_view bits (h1 h2 : store) w1 w2 b c1 c2 seed1 seed2 e1 e2 :
  h1 !! w1 = Some b → h2 !! w2 = Some b →
  seed_fits bits seed1 → seed_fits bits seed2 →
  (c1 = true → b ≠ []) → (c2 = true → b ≠ []) →
  seeded seed1 e1 = seeded seed2 e2 →
  outcome_rel
    (λ r1 r2, r1.2 = r2.2 ∧
              r1.1 !! (working_view h1 w1 b c1).2
              = r2.1 !! (working_view h2 w2 b c2).2)
    (init bits h1 w1 c1 seed1 e1) (init bits h2 w2 c2 seed2 e2).
Proof.
  intros H1 H2 Hs1 Hs2 Hc1 Hc2 Hseed.
  rewrite (init_build bits h1 w1 b), (init_build bits h2 w2 b) by done.
  pose proof (build_tables_same_view
                (working_view h1 w1 b c1).1 (working_view h2 w2 b c2).1
                (working_view h1 w1 b c1).2 (working_view h2 w2 b c2).2) as Hv.
  rewrite !working_view_lookup in Hv by done. specialize (Hv eq_refl).
  destruct (build_tables (working_view h1 w1 b c1).1 _) as [[sz1 st1]| | |],
           (build_tables (working_view h2 w2 b c2).1 _) as [[sz2 st2]| | |];
    simpl in *; try done.
  destruct Hv as (-> & Hs & -> & -> & _). by rewrite Hseed.
Qed.

(** ** Reproducibility *)

Lemma sample_1_total bits s :
  (32 <= bits)%Z → table_ok s →
  ∃ x s', sample_1 bits s = Ok (x, s') ∧ (0 <= x < n s)%Z ∧ table_ok s'.
Proof.
  intros Hbits (Hn & Hmx & Hlp & Hla & Hal).
  set (col := die_of bits (maxi s) (minstd_rand.next (generator s)) (n s)).
  assert (Hcol : (0 <= col < n s)%Z).
  { unfold col. rewrite Hmx. apply die_of_range; try done. apply next_range. }
  destruct (lookup_lt_is_Some_2 (proba s) (Z.to_nat col)) as [p Hp]; [lia|].
  destruct (lookup_lt_is_Some_2 (alias s) (Z.to_nat col)) as [a Ha]; [lia|].
  pose proof (Forall_lookup_1 _ _ _ _ Hal Ha) as Hlt. simpl in Hlt.
  unfold sample_1, fair_die, coin_toss, draw. simpl. fold col.
  unfold read_int. destruct (Z.ltb_spec col 0); [lia|].
  rewrite (read_lookup _ _ _ Hp). simpl.
  destruct (coin_of _ _ _).
  - eexists _, _. split; [done|]. split; [done|]. by unfold table_ok.
  - rewrite (read_lookup _ _ _ Ha). simpl.
    eexists _, _. split; [done|]. split; [lia|]. by unfold table_ok.
Qed.

Lemma draws_total bits k : ∀ s,
  (32 <= bits)%Z → table_ok s →
  ∃ xs s', draws bits k s = Ok (xs, s') ∧ length xs = k.
Proof.
  induction k as [|k IH]; intros s Hbits Hs.
  - by exists [], s.
  - destruct (sample_1_total bits s Hbits Hs) as (x & s1 & Hx & _ & Hs1).
    destruct (IH s1 Hbits Hs1) as (xs & s2 & Hxs & Hlen).
    exists (x :: xs), s2. rewrite draws_S, Hx. simpl. rewrite Hxs. simpl.
    split; [done|]. by rewrite Hlen.
Qed.

(** C9: two Samplers built from the same weights with the same explicit seed
    give the same outcome for [sample_k(k)], index for index, for every [k]:
    where the buffers are stored, whether they were copied and what the
    entropy source holds make no difference.  (Whether they were copied
    matters for no weights at all only, which the copy refuses.)  From
    [n >= 1] weights, with a seed that fits the type it is converted to
    ([sbits] wide) and for [k >= 0], that outcome is a sequence of [k]
    indices, whatever the width [bits] of the engine's draws. *)
Theorem same_seed_same_samples bits sbits (h1 h2 : store) w1 w2 b c1 c2 e1 e2 sd k :
  h1 !! w1 = Some b → h2 !! w2 = Some b →
  (c1 = c2 ∨ b ≠ [] →
   ('(_, s) ← init sbits h1 w1 c1 (Some sd) e1; fst <$> sample_k bits s k)
   = ('(_, s) ← init sbits h2 w2 c2 (Some sd) e2; fst <$> sample_k bits s k)) ∧
  (1 ≤ length b → (Z.of_nat (length b) <= INT_MAX)%Z →
   (32 <= bits)%Z → (0 <= sd < 2 ^ sbits)%Z → (0 <= k)%Z →
   ∃ xs, ('(_, s) ← init sbits h1 w1 c1 (Some sd) e1; fst <$> sample_k bits s k)
           = Ok xs ∧
         Z.of_nat (length xs) = k).
Proof.
  intros H1 H2. split.
  - intros Hc.
    destruct (decide (0 <= sd < 2 ^ sbits)%Z) as [Hsd|Hsd]; cycle 1.
    { rewrite !init_seed_overflow by done. done. }
    assert (Hsame : (c1 = true → b ≠ []) → (c2 = true → b ≠ []) →
      ('(_, s) ← init sbits h1 w1 c1 (Some sd) e1; fst <$> sample_k bits s k)
      = ('(_, s) ← init sbits h2 w2 c2 (Some sd) e2; fst <$> sample_k bits s k)).
    { intros Hc1 Hc2.
      pose proof (init_same_view sbits h1 h2 w1 w2 b c1 c2 (Some sd) (Some sd)
                    e1 e2 H1 H2 Hsd Hsd Hc1 Hc2 eq_refl) as Hv.
      destruct (init sbits h1 w1 c1 (Some sd) e1) as [[h1' s1]| | |],
               (init sbits h2 w2 c2 (Some sd) e2) as [[h2' s2]| | |];
        simpl in *; try done.
      + destruct Hv as [-> _]. done.
      + by rewrite Hv. }
    destruct b as [|x b].
    + destruct Hc as [<- | Hne]; [|done]. destruct c1.
      * rewrite !init_copy_empty by done. done.
      * apply Hsame; intros; done.
    + apply Hsame; intros; done.
  - intros Hpos Hfit Hbits Hsd Hk.
    pose proof (nonempty_copy b c1 Hpos) as Hne.
    destruct (init_invariant sbits h1 w1 b c1 (Some sd) e1 (λ _, True))
      as (st & final & _ & _ & _ & _ & _ & Hrun); try done.
    pose proof (init_table_ok sbits h1 w1 b c1 (Some sd) e1 _ _ H1 Hpos Hrun) as Hok.
    rewrite Hrun. simpl. rewrite sample_k_draws by done.
    destruct (draws_total bits (Z.to_nat k) _ Hbits Hok) as (xs & s' & Hd & Hlen).
    exists xs. rewrite Hd. simpl. split; [done|]. lia.
Qed.

(** The witness of [same_seed_same_samples]: the weights 1/4, 3/4 in two
    stores, copied in one run and not in the other, seeded with 42, drawn a
    thousand times. *)
Lemma same_seed_same_samples_witness :
  ('(_, s) ← init 64 (one_buffer [1 # 4; 3 # 4]%Q) caller true (Some 42%Z) 7;
   fst <$> sample_k 64 s 1000)
  = ('(_, s) ← init 64 {[ 5%positive := [1 # 4; 3 # 4]%Q ]} 5%positive false
                 (Some 42%Z) 11;
     fst <$> sample_k 64 s 1000) ∧
  ∃ xs,
    ('(_, s) ← init 64 (one_buffer [1 # 4; 3 # 4]%Q) caller true (Some 42%Z) 7;
     fst <$> sample_k 64 s 1000) = Ok xs ∧
    Z.of_nat (length xs) = 1000%Z.
Proof.
  destruct (same_seed_same_samples 64 64 (one_buffer [1 # 4; 3 # 4]%Q)
              {[ 5%positive := [1 # 4; 3 # 4]%Q ]} caller 5%positive
              [1 # 4; 3 # 4]%Q true false 7%Z 11%Z 42%Z 1000%Z)
    as [Hsame Hmany]; [reflexivity | reflexivity |].
  split; [apply Hsame; right; discriminate|].
  apply Hmany; [simpl; lia | unfold INT_MAX; simpl; lia | lia | lia | lia].
Defined.

(** ** The caller's buffer *)

Lemma fresh_not_held (h : store) w b : h !! w = Some b → w ≠ fresh (dom h).
Proof.
  intros Hb ->. apply (is_fresh (dom h)). apply elem_of_dom. by exists b.
Qed.

(** The construction writes to its working buffer only. *)
Lemma init_frame bits (h : store) w b copy seed entropy :
  h !! w = Some b → seed_fits bits seed → (copy = true → b ≠ []) →
  (Z.of_nat (length b) <= INT_MAX)%Z →
  ∃ h' s rewritten,
    init bits h w copy seed entropy = Ok (h', s) ∧
    h' !! (working_view h w b copy).2 = Some rewritten ∧
    ∀ l, l ≠ (working_view h w b copy).2 →
         h' !! l = (working_view h w b copy).1 !! l.
Proof.
  intros Hb Hseed Hne Hfit.
  destruct (init_invariant bits h w b copy seed entropy
              (λ st, ∀ l, l ≠ (working_view h w b copy).2 →
                          t_store st !! l = (working_view h w b copy).1 !! l))
    as (st & final & Hwf & Hframe & _ & _ & _ & Hrun); try done.
  - intros st less sm more lg st' Hwf Hframe Es El Hbody l Hl.
    destruct (pair_body_wf _ _ less more sm lg st Hwf Es El)
      as (b' & wless & wmore & st1 & _ & _ & _ & -> & Hrun' & _ & _).
    rewrite Hrun' in Hbody. injection Hbody as <-. simpl.
    rewrite lookup_insert_ne by done. by apply Hframe.
  - destruct Hwf as ([rewritten [Hr _]] & _).
    eexists _, _, rewritten. split; [exact Hrun|]. done.
Qed.

(** C10: from weights (one at least) and a seed that fits the engine's
    result type, with [copy=True] the construction rewrites a new buffer,
    and the caller's buffer holds after the call what it held before; with
    [copy=False] the caller's buffer itself ends up holding the rewritten
    weights, those that the copy holds in the other case.  The Sampler built
    is the same, and no other buffer of the store changes. *)
Theorem copy_spares_the_callers_buffer bits (h : store) w b seed entropy :
  h !! w = Some b → b ≠ [] → seed_fits bits seed →
  (Z.of_nat (length b) <= INT_MAX)%Z →
  ∃ h_copy h_in_place s rewritten,
    init bits h w true seed entropy = Ok (h_copy, s) ∧
    init bits h w false seed entropy = Ok (h_in_place, s) ∧
    h_copy !! w = Some b ∧
    h_copy !! fresh (dom h) = Some rewritten ∧
    h_in_place !! w = Some rewritten ∧
    (∀ l, l ≠ fresh (dom h) → h_copy !! l = h !! l) ∧
    (∀ l, l ≠ w → h_in_place !! l = h !! l).
Proof.
  intros Hb Hnil Hseed Hfit.
  destruct (init_frame bits h w b true seed entropy Hb Hseed (λ _, Hnil) Hfit)
    as (hc & sc & rc & Hrunc & Hrc & Hframec).
  destruct (init_frame bits h w b false seed entropy Hb Hseed (λ _, Hnil) Hfit)
    as (hn & sn & rn & Hrunn & Hrn & Hframen).
  pose proof (init_same_view bits h h w w b true false seed seed entropy entropy
                Hb Hb Hseed Hseed (λ _, Hnil) (λ _, Hnil) eq_refl) as Hv.
  rewrite Hrunc, Hrunn in Hv. simpl in Hv, Hrc, Hrn, Hframec, Hframen.
  destruct Hv as [-> Hsame]. rewrite Hrc, Hrn in Hsame. injection Hsame as ->.
  pose proof (fresh_not_held h w b Hb) as Hne.
  exists hc, hn, sn, rn. split; [done|]. split; [done|]. split.
  { rewrite Hframec by done. by rewrite lookup_insert_ne. }
  split; [done|]. split; [done|]. split; [|done].
  intros l Hl. rewrite Hframec by done. by rewrite lookup_insert_ne.
Qed.

(** The witness of [copy_spares_the_callers_buffer]: from the weights
    1/4, 3/4 the loop rewrites the second to 1/2, in the copy or in place. *)
Lemma copy_spares_the_callers_buffer_witness :
  ∃ h_copy h_in_place s,
    init 64 (one_buffer [1 # 4; 3 # 4]%Q) caller true (Some 1%Z) 0 = Ok (h_copy, s) ∧
    init 64 (one_buffer [1 # 4; 3 # 4]%Q) caller false (Some 1%Z) 0
      = Ok (h_in_place, s) ∧
    h_copy !! caller = Some [1 # 4; 3 # 4]%Q ∧
    h_in_place !! caller = Some [1 # 4; 16 # 32]%Q.
Proof.
  destruct (copy_spares_the_callers_buffer 64 (one_buffer [1 # 4; 3 # 4]%Q)
              caller [1 # 4; 3 # 4]%Q (Some 1%Z) 0%Z)
    as (hc & hn & s & r & Hc & Hn & Hkeep & _ & Hin & _).
  - reflexivity.
  - discriminate.
  - simpl. lia.
  - unfold INT_MAX. simpl. lia.
  - exists hc, hn, s. split; [exact Hc|]. split; [exact Hn|].
    split; [exact Hkeep|].
    assert (E : init 64 (one_buffer [1 # 4; 3 # 4]%Q) caller false (Some 1%Z) 0
                = Ok ({[ caller := [1 # 4; 16 # 32]%Q ]},
                      MkSampler 2 1 2147483646 [1; 0] [2 # 4; 1]%Q)).
    { vm_compute. reflexivity. }
    rewrite E in Hn. injection Hn as <- _. reflexivity.
Defined.

(** ** The construction and the algorithm of the specification *)

Lemma same_reals_refl l : same_reals l l.
Proof. apply Forall2_same_length_lookup. split; [done|]. intros i x y Hx Hy.
  rewrite Hx in Hy. injection Hy as <-. reflexivity. Qed.

(** A round of the code's loop is a round of step 3. *)
Lemma pair_body_refines w sz st less sm more lg st' :
  well_formed w sz st → small st = less :: sm → large st = more :: lg →
  pair_body w sz (average sz) less more sm lg st = Ok st' →
  spec_step sz (abstraction w st) (abstraction w st').
Proof.
  intros Hwf Es El Hrun.
  destruct (pair_body_wf w sz less more sm lg st Hwf Es El)
    as (b & wless & wmore & st1 & Hb & Hwl & Hwm & -> & Hrun' & _ & _).
  rewrite Hrun' in Hrun. injection Hrun as <-.
  apply (spec_pair sz _ _ less more sm lg wless wmore); unfold abstraction; simpl.
  - by rewrite Es.
  - by rewrite El.
  - by rewrite Hb.
  - by rewrite Hb.
  - apply same_reals_refl.
  - done.
  - rewrite lookup_insert_eq, Hb. simpl.
    apply Forall2_insert; [apply same_reals_refl|]. ring.
  - unfold reclassified, push_front.
    destruct (Qle_bool (average sz) (wmore + wless - average sz)) eqn:Hc.
    + right. apply Qle_bool_iff in Hc. split; [lra|]. split; [done|].
      by rewrite <- Permutation_cons_append.
    + left. apply Qle_bool_false in Hc. split; [lra|]. split; [|done].
      by rewrite <- Permutation_cons_append.
Qed.

(** C6: the construction is a run of the specification's worklist algorithm.
    From the partition of the indices (those of weight below [avg] in
    [small], the others in [large]) the code's loop makes rounds of step 3:
    each pops [less] from [small] and [more] from [large], sets
    [probability[less] = weight[less] * n] and [alias[less] = more], adds
    [weight[less] - avg] to [weight[more]] and puts [more] back by its new
    weight.  It stops in a state where a worklist is empty, and the
    probabilities returned are those of that state with 1 at every index left
    in either worklist. *)
Theorem construction_follows_the_worklist_algorithm (h : store) w b :
  h !! w = Some b → (Z.of_nat (length b) <= INT_MAX)%Z →
  ∃ sm lg st tables,
    populate h w (average (length b)) (seq 0 (length b)) [] [] = Ok (sm, lg) ∧
    sm ++ lg ≡ₚ seq 0 (length b) ∧
    Forall (λ i, ∃ x, b !! i = Some x ∧ (x < average (length b))%Q) sm ∧
    Forall (λ i, ∃ x, b !! i = Some x ∧ (average (length b) <= x)%Q) lg ∧
    rtc (spec_step (length b))
      (SpecState b (replicate (length b) 0%Q) (replicate (length b) 0) sm lg)
      (abstraction w st) ∧
    (spec_small (abstraction w st) = [] ∨ spec_large (abstraction w st) = []) ∧
    build_tables h w = Ok (length b, tables) ∧
    t_alias tables = spec_alias (abstraction w st) ∧
    spec_drained (abstraction w st) (t_proba tables).
Proof.
  intros Hb Hfit.
  destruct (build_tables_invariant h w b
              (λ st, ∃ sm lg,
                 populate h w (average (length b)) (seq 0 (length b)) [] []
                   = Ok (sm, lg) ∧
                 sm ++ lg ≡ₚ seq 0 (length b) ∧
                 rtc (spec_step (length b))
                   (SpecState b (replicate (length b) 0%Q)
                              (replicate (length b) 0) sm lg)
                   (abstraction w st)))
    as (st & final & Hwf & (sm & lg & Hpop & Hperm & Hsteps) & Hexit & Hlen
        & Hfinal & Hrun); try done.
  - intros sm lg Hpop Hperm. exists sm, lg. split; [done|]. split; [done|].
    unfold abstraction. simpl. rewrite Hb. simpl. apply rtc_refl.
  - intros st less sm more lg st' Hwf (sm0 & lg0 & Hpop & Hperm & Hsteps)
      Es El Hbody.
    exists sm0, lg0. split; [done|]. split; [done|].
    eapply rtc_r; [exact Hsteps|]. by eapply pair_body_refines.
  - destruct (populate_classified h w (length b) b (seq 0 (length b)) [] []
                sm lg Hb) as [Hsm Hlg]; try done.
    exists sm, lg, st, (TState (t_store st) (t_alias st) final [] []).
    repeat (split; [done|]). unfold spec_drained. simpl.
    destruct Hwf as (_ & _ & Hlp & _).
    split; [lia | done].
Qed.

(** The witness of [construction_follows_the_worklist_algorithm]: the
    weights 1/10, 2/10, 3/10, 4/10. *)
Lemma construction_follows_the_worklist_algorithm_witness :
  ∃ tables,
    build_tables (one_buffer [1 # 10; 2 # 10; 3 # 10; 4 # 10]%Q) caller
      = Ok (4, tables) ∧
    t_alias tables = [2; 3; 3; 0] ∧
    same_reals (t_proba tables) [4 # 10; 8 # 10; 6 # 10; 1]%Q.
Proof.
  destruct (construction_follows_the_worklist_algorithm
              (one_buffer [1 # 10; 2 # 10; 3 # 10; 4 # 10]%Q) caller
              [1 # 10; 2 # 10; 3 # 10; 4 # 10]%Q)
    as (sm & lg & st & tables & _ & _ & _ & _ & _ & _ & Hrun & _ & _).
  - reflexivity.
  - unfold INT_MAX. simpl. lia.
  - exists tables. split; [exact Hrun|].
    assert (E : build_tables (one_buffer [1 # 10; 2 # 10; 3 # 10; 4 # 10]%Q) caller
                = Ok (4, TState {[ caller := [1 # 10; 2 # 10; 60 # 400; 160000 # 640000]%Q ]}
                              [2; 3; 3; 0] [4 # 10; 8 # 10; 240 # 400; 1]%Q [] [])).
    { vm_compute. reflexivity. }
    rewrite E in Hrun. injection Hrun as <-. simpl. split; [reflexivity|].
    repeat constructor.
Defined.

(** ** Sums of rationals over indices *)

Lemma Qsum_cons f j l : Qsum f (j :: l) = (f j + Qsum f l)%Q.
Proof. reflexivity. Qed.

Lemma Qsum_ext f g l :
  (∀ j, j ∈ l → (f j == g j)%Q) → (Qsum f l == Qsum g l)%Q.
Proof.
  induction l as [|i l IH]; intros H; [reflexivity|].
  rewrite !Qsum_cons. rewrite (H i) by (by left).
  rewrite IH; [reflexivity|]. intros j Hj. apply H. by right.
Qed.

Lemma Qsum_app f l1 l2 : (Qsum f (l1 ++ l2) == Qsum f l1 + Qsum f l2)%Q.
Proof.
  induction l1 as [|i l1 IH].
  - change (Qsum f ([] ++ l2)) with (Qsum f l2). change (Qsum f []) with 0%Q. ring.
  - change ((i :: l1) ++ l2) with (i :: (l1 ++ l2)). rewrite !Qsum_cons, IH. ring.
Qed.

Lemma Qsum_perm f l1 l2 : l1 ≡ₚ l2 → (Qsum f l1 == Qsum f l2)%Q.
Proof.
  induction 1 as [|x l l' _ IH|x y l|l l' l'' _ IH1 _ IH2].
  - reflexivity.
  - rewrite !Qsum_cons, IH. reflexivity.
  - rewrite !Qsum_cons. ring.
  - by rewrite IH1.
Qed.

Lemma Qsum_zero f l : (∀ j, j ∈ l → (f j == 0)%Q) → (Qsum f l == 0)%Q.
Proof.
  induction l as [|i l IH]; intros H; [reflexivity|].
  rewrite Qsum_cons, IH, (H i); [ring | by left |].
  intros j Hj. apply H. by right.
Qed.

(** Changing the summand at one index of a list without repetition. *)
Lemma Qsum_change_one f g l x :
  NoDup l → x ∈ l → (∀ j, j ∈ l → j ≠ x → (g j == f j)%Q) →
  (Qsum g l == Qsum f l + (g x - f x))%Q.
Proof.
  induction l as [|i l IH]; intros Hnd Hx Hsame.
  - by apply elem_of_nil in Hx.
  - apply NoDup_cons in Hnd as [Hi Hnd]. rewrite !Qsum_cons.
    apply elem_of_cons in Hx as [->|Hx].
    + rewrite (Qsum_ext g f l); [ring|].
      intros j Hj. apply Hsame; [by right|]. intros ->. done.
    + rewrite IH; try done.
      * rewrite (Hsame i); [ring | by left |]. intros ->. done.
      * intros j Hj Hne. apply Hsame; [by right | done].
Qed.

Lemma Qsum_shift f s len : Qsum f (seq (S s) len) = Qsum (λ j, f (S j)) (seq s len).
Proof.
  revert s. induction len as [|len IH]; intros s; [done|].
  cbn [seq]. rewrite !Qsum_cons. by rewrite IH.
Qed.

Lemma Qsum_nonneg f l :
  (∀ j, j ∈ l → (0 <= f j)%Q) → (0 <= Qsum f l)%Q.
Proof.
  induction l as [|i l IH]; intros H; [apply Qle_refl|].
  rewrite Qsum_cons.
  assert (0 <= f i)%Q by (apply H; by left).
  assert (0 <= Qsum f l)%Q by (apply IH; intros j Hj; apply H; by right).
  lra.
Qed.

(** Non-negative summands that add up to 0 are all 0. *)
Lemma Qsum_nonneg_zero f l :
  (∀ j, j ∈ l → (0 <= f j)%Q) → (Qsum f l == 0)%Q →
  ∀ j, j ∈ l → (f j == 0)%Q.
Proof.
  induction l as [|i l IH]; intros Hpos Hsum j Hj.
  - by apply elem_of_nil in Hj.
  - rewrite Qsum_cons in Hsum.
    assert (0 <= f i)%Q by (apply Hpos; by left).
    assert (0 <= Qsum f l)%Q.
    { apply Qsum_nonneg. intros j' Hj'. apply Hpos. by right. }
    apply elem_of_cons in Hj as [->|Hj]; [lra|].
    apply IH; try done; [|lra]. intros j' Hj'. apply Hpos. by right.
Qed.

(** Negative summands do not add up to 0. *)
Lemma Qsum_negative f i l :
  (∀ j, j ∈ i :: l → (f j < 0)%Q) → (Qsum f (i :: l) < 0)%Q.
Proof.
  revert i. induction l as [|i' l IH]; intros i H.
  - rewrite Qsum_cons. change (Qsum f []) with 0%Q.
    assert (f i < 0)%Q by (apply H; by left). lra.
  - rewrite Qsum_cons.
    assert (f i < 0)%Q by (apply H; by left).
    assert (Qsum f (i' :: l) < 0)%Q.
    { apply IH. intros j Hj. apply H. by right. }
    lra.
Qed.

Lemma Qsum_total (b : list Q) c :
  (Qsum (λ i, default 0 (b !! i) - c) (seq 0 (length b))
   == total b - inject_Z (Z.of_nat (length b)) * c)%Q.
Proof.
  induction b as [|x b IH].
  - unfold total, Qsum. simpl. ring.
  - cbn [length seq]. rewrite Qsum_cons, Qsum_shift. cbn [lookup].
    simpl (default _ ((x :: b) !! 0)).
    rewrite (Qsum_ext _ (λ i, default 0 (b !! i) - c)%Q) by (intros; reflexivity).
    rewrite IH. unfold total. simpl foldr.
    rewrite Nat2Z.inj_succ, <- Z.add_1_r, inject_Z_plus.
    change (default 0%Q (list_lookup 0 (x :: b))) with x.
    change (inject_Z 1) with 1%Q. ring.
Qed.

(** ** Mass is conserved by a round *)

(** What a round does, from a classified state. *)
Lemma pair_body_step w sz st less sm more lg st' :
  well_formed w sz st → classified w sz st →
  small st = less :: sm → large st = more :: lg →
  pair_body w sz (average sz) less more sm lg st = Ok st' →
  ∃ b wless wmore,
    t_store st !! w = Some b ∧ b !! less = Some wless ∧ b !! more = Some wmore ∧
    (0 <= wless)%Q ∧ (wless < average sz)%Q ∧ (average sz <= wmore)%Q ∧
    less < sz ∧ more < sz ∧ length (t_alias st) = sz ∧ length (t_proba st) = sz ∧
    less ≠ more ∧ (less ∉ sm ++ lg) ∧ (more ∉ sm ++ lg) ∧ NoDup (sm ++ lg) ∧
    t_store st' !! w = Some (<[more := (wmore + wless - average sz)%Q]> b) ∧
    t_alias st' = <[less := more]> (t_alias st) ∧
    t_proba st' = <[less := (wless * inject_Z (Z.of_nat sz))%Q]> (t_proba st) ∧
    small st' ++ large st' ≡ₚ more :: sm ++ lg.
Proof.
  intros Hwf (b & Hb & Hnn & Hsm & Hlg & Hnd) Es El Hrun.
  destruct (pair_body_wf w sz less more sm lg st Hwf Es El)
    as (b' & wless & wmore & st1 & Hb' & Hwl & Hwm & -> & Hrun' & _ & _).
  rewrite Hrun' in Hrun. injection Hrun as <-.
  rewrite Hb in Hb'. injection Hb' as <-.
  destruct Hwf as (_ & Hla & Hlp & Hism & Hilg).
  rewrite Es in Hsm, Hnd, Hism. rewrite El in Hlg, Hnd, Hilg.
  apply Forall_cons in Hsm as [(x1 & Hx1 & Hless) _].
  apply Forall_cons in Hlg as [(x2 & Hx2 & Hmore) _].
  rewrite Hwl in Hx1. injection Hx1 as <-.
  rewrite Hwm in Hx2. injection Hx2 as <-.
  apply Forall_cons in Hism as [Hless_lt _].
  apply Forall_cons in Hilg as [Hmore_lt _].
  simpl in Hnd. apply NoDup_cons in Hnd as [Hl Hnd].
  assert (Hmid : NoDup (more :: sm ++ lg)).
  { by rewrite (Permutation_middle sm lg more). }
  assert (Hl' : less ∉ more :: sm ++ lg).
  { by rewrite (Permutation_middle sm lg more). }
  apply NoDup_cons in Hmid as [Hfresh Hmid].
  apply not_elem_of_cons in Hl' as [Hne Hl'].
  exists b, wless, wmore. simpl.
  split; [done|]. split; [done|]. split; [done|].
  split; [by apply (Forall_lookup_1 _ _ _ _ Hnn Hwl)|].
  repeat (split; [done|]).
  split; [by rewrite lookup_insert_eq|]. split; [done|]. split; [done|].
  unfold push_front. destruct (Qle_bool _ _).
  - rewrite app_assoc. by rewrite <- Permutation_cons_append.
  - rewrite <- app_assoc. simpl. by rewrite <- Permutation_middle.
Qed.

Lemma pair_body_balanced w sz st less sm more lg st' :
  well_formed w sz st → classified w sz st → balanced w sz st →
  small st = less :: sm → large st = more :: lg →
  pair_body w sz (average sz) less more sm lg st = Ok st' →
  balanced w sz st'.
Proof.
  intros Hwf Hcl Hbal Es El Hrun.
  destruct (pair_body_step w sz st less sm more lg st' Hwf Hcl Es El Hrun)
    as (b & wless & wmore & Hb & Hwl & Hwm & _ & _ & _ & _ & Hmore_lt & _ & _
        & Hne & Hl & Hm & Hnd & Hb' & _ & _ & Hperm).
  unfold balanced in *. rewrite Hb' , (Qsum_perm _ _ _ Hperm). simpl.
  rewrite Hb, Es, El in Hbal. simpl in Hbal.
  rewrite Qsum_cons in Hbal.
  rewrite (Qsum_perm _ (sm ++ more :: lg) (more :: sm ++ lg)) in Hbal
    by (by rewrite <- Permutation_middle).
  rewrite Qsum_cons in *. rewrite Hwl, Hwm in Hbal. simpl in Hbal.
  rewrite list_lookup_insert_eq by (by apply (lookup_lt_Some _ _ _ Hwm)).
  simpl.
  rewrite (Qsum_ext _ (λ i, default 0 (b !! i) - average sz)%Q (sm ++ lg)).
  - lra.
  - intros j Hj. rewrite list_lookup_insert_ne; [reflexivity|].
    intros ->. done.
Qed.

Lemma scaled_back sz x :
  0 < sz → (x * inject_Z (Z.of_nat sz) / inject_Z (Z.of_nat sz) == x)%Q.
Proof.
  intros H. pose proof (size_positive sz H) as Hpos.
  field. intros E. rewrite E in Hpos. by apply Qlt_irrefl in Hpos.
Qed.

Lemma tails_of_less sz x :
  0 < sz →
  ((1 - x * inject_Z (Z.of_nat sz)) / inject_Z (Z.of_nat sz)
   == average sz - x)%Q.
Proof.
  intros H. pose proof (size_positive sz H) as Hpos.
  unfold average. field. intros E. rewrite E in Hpos. by apply Qlt_irrefl in Hpos.
Qed.

Lemma pair_body_mass_conserved w sz b0 st less sm more lg st' :
  well_formed w sz st → classified w sz st → mass_conserved w sz b0 st →
  small st = less :: sm → large st = more :: lg →
  pair_body w sz (average sz) less more sm lg st = Ok st' →
  mass_conserved w sz b0 st'.
Proof.
  intros Hwf Hcl Hmass Es El Hrun.
  destruct (pair_body_step w sz st less sm more lg st' Hwf Hcl Es El Hrun)
    as (b & wless & wmore & Hb & Hwl & Hwm & _ & _ & _ & Hless_lt & Hmore_lt
        & Hla & Hlp & Hne & Hl & Hm & Hnd & Hb' & Hal' & Hpr' & Hperm).
  assert (Hsz : 0 < sz) by lia.
  assert (Hact' : ∀ j, j ∈ small st' ++ large st' ↔ j = more ∨ j ∈ sm ++ lg).
  { intros j. rewrite Hperm. apply elem_of_cons. }
  assert (Hact : ∀ j, j ∈ small st ++ large st
                      ↔ j = less ∨ j = more ∨ j ∈ sm ++ lg).
  { intros j. rewrite Es, El. simpl. rewrite elem_of_cons.
    rewrite <- (Permutation_middle sm lg more). by rewrite elem_of_cons. }
  intros k x Hk. specialize (Hmass k x Hk). unfold mass_of in *.
  rewrite Hb' , Hal', Hpr'. rewrite Hb in Hmass. simpl default in *.
  set (nq := inject_Z (Z.of_nat sz)) in *.
  set (f := tails_term nq (small st ++ large st) (t_alias st) (t_proba st) k) in *.
  set (g := tails_term nq (small st' ++ large st') (<[less:=more]> (t_alias st))
              (<[less:=(wless * nq)%Q]> (t_proba st)) k).
  assert (Hsum : (Qsum g (seq 0 sz) == Qsum f (seq 0 sz) + (g less - f less))%Q).
  { apply Qsum_change_one.
    - apply NoDup_seq.
    - apply elem_of_seq. lia.
    - intros j _ Hj. unfold g, f, tails_term.
      rewrite !list_lookup_insert_ne by done.
      destruct (t_alias st !! j) as [a|]; [|reflexivity].
      destruct (t_proba st !! j) as [p|]; [|reflexivity].
      destruct (decide (a = k ∧ j ∉ small st' ++ large st')) as [[E1 H1]|H1],
               (decide (a = k ∧ j ∉ small st ++ large st)) as [[E2 H2]|H2];
        try reflexivity; exfalso.
      + apply H2. split; [done|]. rewrite Hact. rewrite Hact' in H1. tauto.
      + apply H1. split; [done|]. rewrite Hact'. rewrite Hact in H2. tauto. }
  assert (Hf : (f less == 0)%Q).
  { unfold f, tails_term.
    destruct (t_alias st !! less) as [a|]; [|reflexivity].
    destruct (t_proba st !! less) as [p|]; [|reflexivity].
    destruct (decide (a = k ∧ less ∉ small st ++ large st)) as [[_ H1]|_];
      [|reflexivity].
    exfalso. apply H1. rewrite Hact. by left. }
  assert (Hg : (g less == if decide (more = k) then average sz - wless else 0)%Q).
  { unfold g, tails_term.
    rewrite !list_lookup_insert_eq by lia.
    destruct (decide (more = k)) as [E2|E2].
    - rewrite decide_True; [by apply tails_of_less|].
      split; [done|]. rewrite Hact'. intros [?|?]; done.
    - rewrite decide_False; [reflexivity|]. intros [? _]. done. }
  rewrite Hsum, Hf, Hg. clear Hsum Hf Hg.
  assert (Hin_less' : less ∉ small st' ++ large st').
  { rewrite Hact'. intros [?|?]; done. }
  assert (Hin_more' : more ∈ small st' ++ large st') by (rewrite Hact'; by left).
  assert (Hin_less : less ∈ small st ++ large st) by (rewrite Hact; by left).
  assert (Hin_more : more ∈ small st ++ large st) by (rewrite Hact; right; by left).
  destruct (decide (k = less)) as [->|Hkl]; [|destruct (decide (k = more)) as [->|Hkm]].
  - rewrite decide_False by done. rewrite decide_True in Hmass by done.
    rewrite decide_False by done.
    rewrite list_lookup_insert_eq by lia. rewrite Hwl in Hmass. simpl in *.
    pose proof (scaled_back sz wless Hsz) as Hsb. fold nq in Hsb.
    rewrite Hsb. lra.
  - rewrite decide_True by done. rewrite decide_True in Hmass by done.
    rewrite decide_True by done.
    rewrite list_lookup_insert_eq by (by apply (lookup_lt_Some _ _ _ Hwm)).
    rewrite Hwm in Hmass. simpl in *. lra.
  - rewrite (decide_False (P := more = k)) by done.
    rewrite list_lookup_insert_ne by done.
    rewrite list_lookup_insert_ne by done.
    destruct (decide (k ∈ small st' ++ large st')) as [H1|H1],
             (decide (k ∈ small st ++ large st)) as [H2|H2]; try lra; exfalso.
    + apply H2. rewrite Hact. rewrite Hact' in H1. tauto.
    + apply H1. rewrite Hact'. rewrite Hact in H2. tauto.
Qed.

(** ** Mass at the start and at the end of the loop *)

Lemma initial_mass_conserved (h : store) w b sm lg :
  h !! w = Some b → sm ++ lg ≡ₚ seq 0 (length b) →
  mass_conserved w (length b) b
    (TState h (replicate (length b) 0) (replicate (length b) 0%Q) sm lg).
Proof.
  intros Hb Hperm k x Hk. unfold mass_of. simpl. rewrite Hb. simpl.
  assert (Hin : ∀ j, j < length b → j ∈ sm ++ lg).
  { intros j Hj. rewrite Hperm. apply elem_of_seq. lia. }
  rewrite decide_True by (apply Hin; by apply (lookup_lt_Some _ _ _ Hk)).
  rewrite Hk. simpl. rewrite Qsum_zero; [ring|].
  intros j Hj. apply elem_of_seq in Hj. unfold tails_term.
  destruct (replicate (length b) 0 !! j) as [a|]; [|reflexivity].
  destruct (replicate (length b) 0%Q !! j) as [p|]; [|reflexivity].
  rewrite decide_False; [reflexivity|]. intros [_ Hn]. apply Hn, Hin. lia.
Qed.

Lemma initial_balanced (h : store) w b sm lg :
  h !! w = Some b → sm ++ lg ≡ₚ seq 0 (length b) →
  0 < length b → (total b == 1)%Q →
  balanced w (length b)
    (TState h (replicate (length b) 0) (replicate (length b) 0%Q) sm lg).
Proof.
  intros Hb Hperm Hpos Htot. unfold balanced. simpl. rewrite Hb. simpl.
  rewrite (Qsum_perm _ _ _ Hperm), Qsum_total, Htot.
  rewrite Qmult_comm, (average_scale _ Hpos). ring.
Qed.

(** When the loop ends, the indices still waiting weigh exactly [avg]. *)
Lemma remaining_weigh_average w sz st b :
  classified w sz st → balanced w sz st → t_store st !! w = Some b →
  small st = [] ∨ large st = [] →
  ∀ k, k ∈ small st ++ large st → (default 0 (b !! k) == average sz)%Q.
Proof.
  intros (b' & Hb' & _ & Hsm & Hlg & _) Hbal Hb Hexit k Hk.
  rewrite Hb in Hb'. injection Hb' as <-.
  unfold balanced in Hbal. rewrite Hb in Hbal. simpl in Hbal.
  destruct Hexit as [E|E]; rewrite E in *.
  - simpl in *.
    assert (H0 : (default 0 (b !! k) - average sz == 0)%Q); [|lra].
    apply (Qsum_nonneg_zero (λ i, default 0 (b !! i) - average sz)%Q (large st));
      try done.
    intros j Hj. rewrite Forall_forall in Hlg.
    destruct (Hlg j Hj) as (y & -> & Hy). simpl. lra.
  - rewrite app_nil_r in *. destruct (small st) as [|i l]; [by apply elem_of_nil in Hk|].
    exfalso.
    assert (Hneg : (Qsum (λ i, default 0 (b !! i) - average sz) (i :: l) < 0)%Q).
    { apply Qsum_negative. intros j Hj. rewrite Forall_forall in Hsm.
      destruct (Hsm j Hj) as (y & -> & Hy). simpl. lra. }
    lra.
Qed.

Lemma tails_mass_Qsum nq k al : ∀ pr,
  length al = length pr →
  (tails_mass nq al pr k
   == Qsum (tails_term nq [] al pr k) (seq 0 (length al)))%Q.
Proof.
  induction al as [|a al IH]; intros [|p pr] Hlen; try done.
  cbn [length seq tails_mass]. rewrite Qsum_cons, Qsum_shift.
  rewrite (Qsum_ext _ (tails_term nq [] al pr k)).
  - rewrite <- IH by (simpl in Hlen; lia). unfold tails_term. simpl.
    destruct (decide (a = k)) as [E|E].
    + rewrite decide_True; [reflexivity|]. split; [done|]. apply not_elem_of_nil.
    + rewrite decide_False; [ring|]. intros [? _]. done.
  - intros j _. unfold tails_term. simpl.
    destruct (al !! j) as [a'|]; [|reflexivity].
    destruct (pr !! j) as [p'|]; [|reflexivity].
    destruct (decide (a' = k)) as [E|E].
    + rewrite !decide_True; [reflexivity| |]; (split; [done|]; apply not_elem_of_nil).
    + rewrite !decide_False; [reflexivity| |]; intros [? _]; done.
Qed.

(** ** Mass conservation *)

(** The formula of the data model, on the final tables, is the mass of the
    state the loop ended in. *)
Lemma final_mass w sz st b final k :
  0 < sz → well_formed w sz st → t_store st !! w = Some b →
  (∀ j, j ∈ small st ++ large st → (default 0 (b !! j) == average sz)%Q) →
  length final = sz →
  (∀ i, (i ∈ small st ++ large st → final !! i = Some 1%Q) ∧
        (i ∉ small st ++ large st → final !! i = t_proba st !! i)) →
  (draw_probability
     (MkSampler (Z.of_nat sz) 0 0 (t_alias st) final) k
   == mass_of w sz st k)%Q.
Proof.
  intros Hsz (_ & Hla & Hlp & _) Hb Havg Hlen Hfinal.
  unfold draw_probability, mass_of. simpl. rewrite Hb. simpl.
  set (nq := inject_Z (Z.of_nat sz)).
  rewrite tails_mass_Qsum by lia. rewrite Hla.
  rewrite (Qsum_ext _ (tails_term nq (small st ++ large st) (t_alias st)
                         (t_proba st) k)).
  - destruct (decide (k ∈ small st ++ large st)) as [Hin|Hnin].
    + destruct (Hfinal k) as [Hone _]. rewrite (Hone Hin). simpl.
      rewrite (Havg k Hin). unfold average. fold nq. reflexivity.
    + destruct (Hfinal k) as [_ Hsame]. rewrite (Hsame Hnin). reflexivity.
  - intros j _. unfold tails_term.
    destruct (t_alias st !! j) as [a|]; [|reflexivity].
    destruct (decide (j ∈ small st ++ large st)) as [Hin|Hnin].
    + destruct (Hfinal j) as [Hone _]. rewrite (Hone Hin).
      assert (Hp : is_Some (t_proba st !! j)).
      { apply lookup_lt_is_Some_2. rewrite Hlp, <- Hlen.
        by apply (lookup_lt_Some _ _ _ (Hone Hin)). }
      destruct Hp as [p ->].
      rewrite (decide_False (P := a = k ∧ j ∉ small st ++ large st))
        by (intros [_ ?]; done).
      destruct (decide (a = k ∧ j ∉ [])); [|reflexivity].
      unfold Qdiv. ring.
    + destruct (Hfinal j) as [_ Hsame]. rewrite (Hsame Hnin).
      destruct (t_proba st !! j) as [p|]; [|reflexivity].
      destruct (decide (a = k ∧ j ∉ [])) as [[E1 H1]|H1],
               (decide (a = k ∧ j ∉ small st ++ large st)) as [[E2 H2]|H2];
        try reflexivity; exfalso.
      * by apply H2.
      * apply H1. split; [done|]. apply not_elem_of_nil.
Qed.

(** X14: for weights that are non-negative and add up to 1, the table built
    induces the distribution of the weights: the formula of the data model
    gives, at every index, its weight over the total. *)
Theorem mass_conserved_for_normalised_weights bits (h : store) w b copy seed
    entropy :
  h !! w = Some b → seed_fits bits seed → 1 ≤ length b →
  (Z.of_nat (length b) <= INT_MAX)%Z →
  nonnegative b → (total b == 1)%Q →
  ∃ h' s,
    init bits h w copy seed entropy = Ok (h', s) ∧
    ∀ k x, b !! k = Some x → (draw_probability s k == x / total b)%Q.
Proof.
  intros Hb Hseed Hpos Hfit Hnn Htot.
  pose proof (nonempty_copy b copy Hpos) as Hne.
  set (hw := working_view h w b copy).
  destruct (init_invariant bits h w b copy seed entropy
              (λ st, classified hw.2 (length b) st ∧
                     balanced hw.2 (length b) st ∧
                     mass_conserved hw.2 (length b) b st))
    as (st & final & Hwf & (Hcl & Hbal & Hmass) & Hexit & Hlen & Hfinal & Hrun);
    try done.
  - intros sm lg Hpop Hperm.
    pose proof (working_view_lookup h w b copy Hb) as Hv.
    split; [by apply initial_classified|].
    split; [apply initial_balanced; try done; lia|].
    by apply initial_mass_conserved.
  - intros st less sm more lg st' Hwf (Hcl & Hbal & Hmass) Es El Hbody.
    split; [by eapply pair_body_classified|].
    split; [by eapply pair_body_balanced|].
    by eapply pair_body_mass_conserved.
  - eexists _, _. split; [exact Hrun|]. intros k x Hk.
    pose proof Hwf as ([b' [Hb' _]] & _).
    rewrite Htot. unfold draw_probability. simpl.
    pose proof (final_mass hw.2 (length b) st b' final k) as Hfm.
    unfold draw_probability in Hfm. simpl in Hfm. rewrite Hfm; try done.
    + rewrite (Hmass k x Hk). field.
    + by apply (remaining_weigh_average hw.2 (length b) st b').
Qed.

(** C1, on weights that do not add up to 1: the construction compares the
    weights with [1 / n] as they are, without dividing them by their total.
    From the weights 1, 3 both columns get probability 1, so the table draws
    the index 0 with probability 1/2, where [w[0] / W] is 1/4. *)
Theorem mass_lost_on_unnormalised_weights :
  ∃ s,
    Sampler_of 64 [1; 3]%Q 1 = Ok s ∧
    proba s = [1; 1]%Q ∧ alias s = [0; 0] ∧
    (draw_probability s 0 == 1 # 2)%Q ∧
    (1 / total [1; 3] == 1 # 4)%Q ∧
    ¬ (draw_probability s 0 == 1 / total [1; 3])%Q.
Proof.
  eexists. split; [vm_compute; reflexivity|].
  split; [reflexivity|]. split; [reflexivity|].
  split; [reflexivity|]. split; [reflexivity|].
  intros H. vm_compute in H. discriminate H.
Qed.

(** The witness of [mass_conserved_for_normalised_weights]: the weights
    1/10, 2/10, 3/10, 4/10. *)
Lemma mass_conserved_for_normalised_weights_witness :
  ∃ h' s,
    init 64 (one_buffer [1 # 10; 2 # 10; 3 # 10; 4 # 10]%Q) caller true (Some 1%Z) 0
      = Ok (h', s) ∧
    (draw_probability s 3 == (4 # 10) / total [1 # 10; 2 # 10; 3 # 10; 4 # 10])%Q.
Proof.
  destruct (mass_conserved_for_normalised_weights 64
              (one_buffer [1 # 10; 2 # 10; 3 # 10; 4 # 10]%Q) caller
              [1 # 10; 2 # 10; 3 # 10; 4 # 10]%Q true (Some 1%Z) 0%Z)
    as (h' & s & Hrun & Hmass).
  - reflexivity.
  - simpl. lia.
  - simpl. lia.
  - unfold INT_MAX. simpl. lia.
  - repeat constructor; unfold Qle; simpl; lia.
  - reflexivity.
  - exists h', s. split; [exact Hrun|]. by apply Hmass.
Defined.

(** * Further properties of the code *)

(** ** [fair_die] *)

(** X1: whatever the width of the engine's result type (32 bits or more),
    and so even when the product [draw * k] wraps, [fair_die(k)] of a Sampler
    whose [maxi] is the engine's maximum returns a face in [0, k), for every
    [k] from 1 to [INT_MAX] and every state of the engine. *)
Theorem fair_die_shows_a_face bits s k :
  (32 <= bits)%Z → maxi s = minstd_rand.max → (1 <= k <= INT_MAX)%Z →
  (0 <= (fair_die bits s k).1 < k)%Z.
Proof.
  intros Hbits Hmx Hk. unfold fair_die, draw. simpl. rewrite Hmx.
  apply die_of_range; [done | apply next_range | done].
Qed.

(** The witness of [fair_die_shows_a_face]: a product that wraps in 32
    bits. *)
Lemma fair_die_shows_a_face_witness :
  let r := (fair_die 32 (MkSampler 3 247665088 2147483646 [0; 0; 0] [1; 1; 1]%Q)
              3).1 in
  (0 <= r < 3)%Z.
Proof.
  apply (fair_die_shows_a_face 32
           (MkSampler 3 247665088 2147483646 [0; 0; 0] [1; 1; 1]%Q) 3).
  - lia.
  - reflexivity.
  - unfold INT_MAX. lia.
Defined.

(** X2: where the engine's result type has 62 bits or more, the product
    never wraps: [fair_die(k)] is [floor(draw * k / (maxi + 1))] for every
    [k] from 0 to [INT_MAX] and every state of the engine. *)
Theorem fair_die_scales_the_draw bits s k :
  (62 <= bits)%Z → maxi s = minstd_rand.max → (0 <= k <= INT_MAX)%Z →
  (fair_die bits s k).1
  = (minstd_rand.next (generator s) * k / (maxi s + 1))%Z.
Proof.
  intros Hbits Hmx Hk. unfold fair_die, draw. simpl. rewrite Hmx.
  pose proof (next_range (generator s)) as Hd.
  set (d := minstd_rand.next (generator s)) in *.
  unfold INT_MAX in Hk. unfold minstd_rand.max, minstd_rand.modulus in Hd.
  assert (Hpow : (2 ^ 62 <= 2 ^ bits)%Z) by (apply Z.pow_le_mono_r; lia).
  rewrite die_of_exact; [| lia | lia | unfold INT_MAX; lia | nia].
  change (minstd_rand.max + 1)%Z with 2147483647%Z.
  apply to_int_small. split.
  - apply Z.div_pos; nia.
  - apply Z.div_lt_upper_bound; nia.
Qed.

(** The witness of [fair_die_scales_the_draw]: the greatest draw, on 64
    bits. *)
Lemma fair_die_scales_the_draw_witness :
  (fair_die 64 (MkSampler 3 247665088 2147483646 [0; 0; 0] [1; 1; 1]%Q) 3).1
  = 2%Z.
Proof.
  apply (fair_die_scales_the_draw 64
           (MkSampler 3 247665088 2147483646 [0; 0; 0] [1; 1; 1]%Q) 3).
  - lia.
  - reflexivity.
  - unfold INT_MAX. lia.
Defined.

(** ** [coin_toss] *)

(** X3: for a Sampler with [maxi >= 0], [coin_toss(p)] is tails in every
    state of the engine when [p <= 0], and it is monotone in [p]: a state of
    the engine that gives heads at [p] gives heads at every [q >= p]. *)
Theorem coin_toss_is_monotone s p q :
  (0 <= maxi s)%Z →
  ((p <= 0)%Q → (coin_toss s p).1 = false) ∧
  ((p <= q)%Q → (coin_toss s p).1 = true → (coin_toss s q).1 = true).
Proof.
  intros Hmx. unfold coin_toss, draw. simpl.
  pose proof (next_range (generator s)) as [Hd _].
  split.
  - intros Hp. by apply coin_of_not_positive.
  - intros Hpq. by apply coin_of_mono.
Qed.

(** The witness of [coin_toss_is_monotone]: heads at 1/2, so heads at 3/4. *)
Lemma coin_toss_is_monotone_witness :
  (coin_toss (MkSampler 2 1 2147483646 [1; 0] [2 # 4; 1]%Q) (3 # 4)).1 = true.
Proof.
  destruct (coin_toss_is_monotone
              (MkSampler 2 1 2147483646 [1; 0] [2 # 4; 1]%Q) (1 # 2) (3 # 4))
    as [_ Hmono]; [simpl; lia|].
  apply Hmono; [unfold Qle; simpl; lia | vm_compute; reflexivity].
Defined.

(** X4: the comparison of [coin_toss] is made in single precision, where
    the 63 greatest values of the engine, 2147483584 to 2147483646, are not
    told apart from [maxi]: all are rounded to [2^31].  For a Sampler whose
    [maxi] is the engine's maximum, [coin_toss(1)] is heads exactly in the
    states of the engine whose draw is below 2147483584, and [coin_toss(p)]
    is tails for every [p <= 1] in the others. *)
Theorem coin_toss_rounds_the_draw s :
  maxi s = minstd_rand.max →
  (coin_toss s 1).1
  = bool_decide (minstd_rand.next (generator s) < 2147483584)%Z ∧
  ∀ p, (p <= 1)%Q → (2147483584 <= minstd_rand.next (generator s))%Z →
       (coin_toss s p).1 = false.
Proof.
  intros Hmx. unfold coin_toss, draw. simpl. rewrite Hmx.
  pose proof (next_range (generator s)) as [Hd _].
  split; [by apply coin_of_one|].
  intros p Hp Hbig.
  destruct (coin_of minstd_rand.max _ p) eqn:E; [|done].
  apply (coin_of_mono _ _ p 1) in E; [|done..].
  change minstd_rand.max with 2147483646%Z in E.
  rewrite coin_of_one in E by done.
  apply bool_decide_eq_true_1 in E. lia.
Qed.

(** The witness of [coin_toss_rounds_the_draw]: the engine in the state
    1922112213 draws 247665088 and then 2147483646; in the state 247665088
    the toss against 1 is tails. *)
Lemma coin_toss_rounds_the_draw_witness :
  (coin_toss (MkSampler 2 1922112213 2147483646 [0; 0] [1; 1]%Q) 1).1 = true ∧
  (coin_toss (MkSampler 2 247665088 2147483646 [0; 0] [1; 1]%Q) 1).1 = false.
Proof.
  split.
  - refine (eq_trans (proj1 (coin_toss_rounds_the_draw
                        (MkSampler 2 1922112213 2147483646 [0; 0] [1; 1]%Q)
                        _)) _); reflexivity.
  - apply (proj2 (coin_toss_rounds_the_draw
                    (MkSampler 2 247665088 2147483646 [0; 0] [1; 1]%Q)
                    eq_refl)).
    + unfold Qle. simpl. lia.
    + vm_compute. discriminate.
Defined.

(** ** Batches *)

Lemma sample_1_state bits s x s' :
  sample_1 bits s = Ok (x, s') →
  s' = with_generator s
         (minstd_rand.next (minstd_rand.next (generator s))).
Proof.
  unfold sample_1, fair_die, coin_toss, draw. simpl. intros H.
  destruct (read_int (proba s) _) as [p| | |]; simpl in H; try done.
  destruct (coin_of _ _ _).
  - by injection H as _ <-.
  - destruct (read_int (alias s) _); simpl in H; try done.
    by injection H as _ <-.
Qed.

Lemma draws_length bits k : ∀ s xs s',
  draws bits k s = Ok (xs, s') → length xs = k.
Proof.
  induction k as [|k IH]; intros s xs s' H.
  - by injection H as <- _.
  - rewrite draws_S in H.
    destruct (sample_1 bits s) as [[x s1]| | |]; simpl in H; try done.
    destruct (draws bits k s1) as [[xs1 s2]| | |] eqn:Hd; simpl in H; try done.
    injection H as <- _. simpl. by rewrite (IH _ _ _ Hd).
Qed.

Lemma draws_in_range bits k : ∀ s,
  (32 <= bits)%Z → table_ok s →
  ∃ xs,
    draws bits k s
      = Ok (xs, with_generator s
                  (Nat.iter (2 * k) minstd_rand.next (generator s))) ∧
    Forall (λ x, (0 <= x < n s)%Z) xs.
Proof.
  induction k as [|k IH]; intros s Hbits Hs.
  - exists []. split; [|done]. simpl. by destruct s.
  - destruct (sample_1_total bits s Hbits Hs) as (x & s1 & Hx & Hr & Hs1).
    pose proof (sample_1_state bits s x s1 Hx) as ->.
    destruct (IH _ Hbits Hs1) as (xs & Hxs & Hall).
    exists (x :: xs). split; [|by constructor].
    replace (2 * S k) with (S (S (2 * k))) by lia.
    rewrite !Nat.iter_succ_r, draws_S, Hx. simpl. rewrite Hxs. done.
Qed.

Lemma draws_add bits j : ∀ k s,
  draws bits (j + k) s =
    '(xs, s1) ← draws bits j s;
    '(ys, s2) ← draws bits k s1;
    Ok (xs ++ ys, s2).
Proof.
  induction j as [|j IH]; intros k s.
  - simpl. by destruct (draws bits k s) as [[ys s2]| | |].
  - change (S j + k) with (S (j + k)). rewrite !draws_S.
    destruct (sample_1 bits s) as [[x s1]| | |]; simpl; try done.
    rewrite IH.
    destruct (draws bits j s1) as [[xs s2]| | |]; simpl; try done.
    by destruct (draws bits k s2) as [[ys s3]| | |].
Qed.

(** X5: on a Sampler built from [n >= 1] weights, in any state of its engine,
    [sample_k(k)] with [k >= 0] returns [k] indices, each in [0, n), and leaves
    the Sampler with the same tables and its engine advanced by exactly [2k]
    draws. *)
Theorem sample_k_draws_k_indices bits s k :
  (32 <= bits)%Z → constructed s → (0 <= k)%Z →
  ∃ xs,
    sample_k bits s k
      = Ok (xs, with_generator s
                  (Nat.iter (2 * Z.to_nat k) minstd_rand.next (generator s))) ∧
    Z.of_nat (length xs) = k ∧
    Forall (λ x, (0 <= x < n s)%Z) xs.
Proof.
  intros Hbits Hs Hk. rewrite sample_k_draws by done.
  destruct (draws_in_range bits (Z.to_nat k) s Hbits (constructed_table_ok s Hs))
    as (xs & Hrun & Hall).
  exists xs. split; [done|]. split; [|done].
  rewrite (draws_length _ _ _ _ _ Hrun). lia.
Qed.

(** The witness of [sample_k_draws_k_indices]: five draws from the Sampler
    of the weights 1/4, 3/4. *)
Lemma sample_k_draws_k_indices_witness :
  ∃ xs s',
    sample_k 64 (MkSampler 2 1 2147483646 [1; 0] [2 # 4; 1]%Q) 5 = Ok (xs, s') ∧
    Z.of_nat (length xs) = 5%Z ∧
    Forall (λ x, (0 <= x < 2)%Z) xs.
Proof.
  destruct (sample_k_draws_k_indices 64
              (MkSampler 2 1 2147483646 [1; 0] [2 # 4; 1]%Q) 5)
    as (xs & Hrun & Hlen & Hall).
  - lia.
  - apply (constructed_init 64 (one_buffer [1 # 4; 3 # 4]%Q) caller
             [1 # 4; 3 # 4]%Q true (Some 1%Z) 0%Z
             {[ caller := [1 # 4; 3 # 4]%Q; 2%positive := [1 # 4; 16 # 32]%Q ]}).
    + reflexivity.
    + simpl. lia.
    + vm_compute. reflexivity.
  - lia.
  - eexists xs, _. split; [exact Hrun|]. split; [exact Hlen | exact Hall].
Defined.

(** X6: batches compose.  For [j, k >= 0], [sample_k(j + k)] has the outcome
    of [sample_k(j)] followed by [sample_k(k)] on the Sampler it leaves: the
    indices of the first batch, then those of the second. *)
Theorem sample_k_composes bits s j k :
  (0 <= j)%Z → (0 <= k)%Z →
  sample_k bits s (j + k) =
    '(xs, s1) ← sample_k bits s j;
    '(ys, s2) ← sample_k bits s1 k;
    Ok (xs ++ ys, s2).
Proof.
  intros Hj Hk. rewrite sample_k_draws by lia.
  rewrite Z2Nat.inj_add by done. rewrite draws_add.
  rewrite (sample_k_draws bits s j) by done.
  destruct (draws bits (Z.to_nat j) s) as [[xs s1]| | |]; simpl; try done.
  by rewrite sample_k_draws.
Qed.

(** The witness of [sample_k_composes]: two draws, then three. *)
Lemma sample_k_composes_witness :
  sample_k 64 (MkSampler 2 1 2147483646 [1; 0] [2 # 4; 1]%Q) (2 + 3) =
    '(xs, s1) ← sample_k 64 (MkSampler 2 1 2147483646 [1; 0] [2 # 4; 1]%Q) 2;
    '(ys, s2) ← sample_k 64 s1 3;
    Ok (xs ++ ys, s2).
Proof.
  apply (sample_k_composes 64
           (MkSampler 2 1 2147483646 [1; 0] [2 # 4; 1]%Q) 2 3); lia.
Defined.

(** X7: a Sampler built from a single weight, whatever its value, always
    samples the index 0: in every state of its engine [sample_1] returns 0.
    The seed, if any, fits the type it is converted to, [sbits] wide. *)
Theorem single_weight_samples_zero bits sbits (h : store) w x copy seed entropy :
  h !! w = Some [x] → seed_fits sbits seed → (32 <= bits)%Z →
  ∃ h' s,
    init sbits h w copy seed entropy = Ok (h', s) ∧
    ∀ g, ∃ s', sample_1 bits (with_generator s g) = Ok (0%Z, s').
Proof.
  intros Hb Hseed Hbits.
  destruct (init_invariant sbits h w [x] copy seed entropy (λ _, True))
    as (st & final & _ & _ & _ & _ & _ & Hrun); try done.
  eexists _, _. split; [exact Hrun|]. intros g.
  assert (Hok : table_ok (with_generator
                  (MkSampler (Z.of_nat (length [x])) (seeded seed entropy)
                             minstd_rand.max (t_alias st) final) g)).
  { apply (init_table_ok sbits h w [x] copy seed entropy _ _ Hb) in Hrun; [|simpl; lia].
    exact Hrun. }
  destruct (sample_1_total bits _ Hbits Hok) as (r & s' & Hr & Hrange & _).
  exists s'. rewrite Hr. simpl in Hrange. by replace r with 0%Z by lia.
Qed.

(** The witness of [single_weight_samples_zero]: the weight 5. *)
Lemma single_weight_samples_zero_witness :
  ∃ h' s,
    init 64 (one_buffer [5%Q]) caller true (Some 1%Z) 0 = Ok (h', s) ∧
    ∃ s', sample_1 64 (with_generator s 247665088) = Ok (0%Z, s').
Proof.
  destruct (single_weight_samples_zero 64 64 (one_buffer [5%Q]) caller 5%Q true
              (Some 1%Z) 0%Z) as (h' & s & Hrun & Hzero).
  - reflexivity.
  - simpl. lia.
  - lia.
  - exists h', s. split; [exact Hrun | exact (Hzero 247665088%Z)].
Defined.

(** ** What [sample] returns *)

Lemma sample_k_from_loop_Ok bits values k : ∀ i out s res s',
  i + k ≤ length out →
  sample_k_from_loop bits k i out values s = Ok (res, s') →
  ∃ xs vs,
    draws bits k s = Ok (xs, s') ∧ gathered values xs vs ∧
    res = take i out ++ vs ++ drop (i + k) out.
Proof.
  induction k as [|k IH]; intros i out s res s' Hlen H.
  - injection H as <- <-. exists [], []. split; [done|]. split; [constructor|].
    simpl. rewrite Nat.add_0_r. by rewrite take_drop.
  - rewrite sample_k_from_loop_S in H. rewrite draws_S.
    destruct (sample_1 bits s) as [[x s1]| | |]; simpl in H; try done.
    unfold read_int, read in H.
    destruct (Z.ltb_spec x 0); [done|].
    destruct (values !! Z.to_nat x) as [v|] eqn:Hv; simpl in H; [|done].
    rewrite write_lt in H by lia. simpl in H.
    destruct (IH (S i) (<[i := v]> out) s1 res s') as (xs & vs & Hd & Hg & ->);
      try done.
    { rewrite length_insert. lia. }
    exists (x :: xs), (v :: vs). simpl. rewrite Hd. simpl.
    split; [done|]. split; [by constructor|].
    apply splice_step. lia.
Qed.

(** X9: the shape of what [sample] returns.  With [k = 1] it is a single
    index, or a single value when [values] is given; with any other [k] it
    is an array of exactly [k] indices, or of [k] values, so [k] is not
    negative; [k = 0] gives an empty array. *)
Theorem sample_returns_scalar_or_array bits s k values r s' :
  sample bits s k values = Ok (r, s') →
  match values, r with
  | None, PyInt _ => k = 1%Z
  | Some _, PyFloat _ => k = 1%Z
  | None, IntArray xs => k ≠ 1%Z ∧ Z.of_nat (length xs) = k
  | Some _, FloatArray vs => k ≠ 1%Z ∧ Z.of_nat (length vs) = k
  | _, _ => False
  end.
Proof.
  intros H. unfold sample in H.
  destruct values as [values|]; destruct (Z.eqb_spec k 1) as [->|Hne].
  - destruct (sample_1 bits s) as [[x s1]| | |]; simpl in H; try done.
    destruct (py_getitem values x); simpl in H; try done.
    by injection H as <- _.
  - destruct (as_int_cases k) as [E|E]; rewrite E in H; [|done].
    unfold mbind at 1, outcome_bind at 1 in H. cbv beta iota in H.
    unfold sample_k_from, np_zeros in H.
    destruct (Z.ltb_spec k 0); [done|]. simpl in H.
    destruct (sample_k_from_loop _ _ _ _ _ _) as [[res s1]| | |] eqn:Hloop;
      simpl in H; try done.
    injection H as <- _. split; [done|].
    destruct (sample_k_from_loop_Ok bits values (Z.to_nat k) 0
                (replicate (Z.to_nat k) 0%Q) s res s1)
      as (xs & vs & Hd & Hg & ->); try done.
    { rewrite length_replicate. lia. }
    rewrite take_0, drop_ge by (rewrite length_replicate; lia).
    simpl. rewrite app_nil_r.
    rewrite <- (Forall2_length _ _ _ Hg), (draws_length _ _ _ _ _ Hd). lia.
  - destruct (sample_1 bits s) as [[x s1]| | |]; simpl in H; try done.
    by injection H as <- _.
  - destruct (as_int_cases k) as [E|E]; rewrite E in H; [|done].
    unfold mbind at 1, outcome_bind at 1 in H. cbv beta iota in H.
    unfold sample_k, np_zeros in H.
    destruct (Z.ltb_spec k 0); [done|]. simpl in H.
    pose proof (sample_k_draws bits s k ltac:(lia)) as Hk.
    unfold sample_k, np_zeros in Hk.
    destruct (Z.ltb_spec k 0); [lia|]. simpl in Hk. rewrite Hk in H.
    destruct (draws bits (Z.to_nat k) s) as [[xs s1]| | |] eqn:Hd;
      simpl in H; try done.
    injection H as <- _. split; [done|].
    rewrite (draws_length _ _ _ _ _ Hd). lia.
Qed.

(** The witness of [sample_returns_scalar_or_array]: five indices. *)
Lemma sample_returns_scalar_or_array_witness :
  sample 64 (MkSampler 2 20 2147483646 [0; 0] [1; 1]%Q) 5 None
    = Ok (IntArray [0; 0; 0; 0; 0]%Z,
          MkSampler 2 1868845562 2147483646 [0; 0] [1; 1]%Q) ∧
  (5 ≠ 1)%Z ∧ Z.of_nat (length [0; 0; 0; 0; 0]%Z) = 5%Z.
Proof.
  assert (Hrun : sample 64 (MkSampler 2 20 2147483646 [0; 0] [1; 1]%Q) 5 None
                 = Ok (IntArray [0; 0; 0; 0; 0]%Z,
                       MkSampler 2 1868845562 2147483646 [0; 0] [1; 1]%Q)).
  { vm_compute. reflexivity. }
  split; [exact Hrun|].
  exact (sample_returns_scalar_or_array 64 _ 5 None _ _ Hrun).
Defined.

(** ** Tables the loop does not touch *)

(** X10: when every weight is at least [1/n], or every weight is below
    [1/n] (equal weights, weights that were not divided by their total, no
    weight at all in a buffer that is not copied), the pairing loop makes no
    round: every column keeps probability 1 and the alias 0, so the table is
    the uniform one, and the weights are left as they were, also when [copy]
    is off. *)
Theorem one_sided_weights_give_the_uniform_table bits (h : store) w b copy
    seed entropy :
  h !! w = Some b → seed_fits bits seed → (copy = true → b ≠ []) →
  (Z.of_nat (length b) <= INT_MAX)%Z →
  Forall (λ x, (average (length b) <= x)%Q) b ∨
  Forall (λ x, (x < average (length b))%Q) b →
  ∃ h' s,
    init bits h w copy seed entropy = Ok (h', s) ∧
    proba s = replicate (length b) 1%Q ∧
    alias s = replicate (length b) 0 ∧
    h' !! w = Some b.
Proof.
  intros Hb Hseed Hne Hfit Hside.
  set (hw := working_view h w b copy).
  pose proof (working_view_lookup h w b copy Hb) as Hv. fold hw in Hv.
  destruct (init_invariant bits h w b copy seed entropy
              (λ st, t_store st = hw.1 ∧
                     t_alias st = replicate (length b) 0 ∧
                     t_proba st = replicate (length b) 0%Q ∧
                     small st ++ large st ≡ₚ seq 0 (length b) ∧
                     (small st = [] ∨ large st = [])))
    as (st & final & Hwf & (Hst & Hal & Hpr & Hperm & _) & _ & Hlen & Hfinal
        & Hrun); try done.
  - intros sm lg Hpop Hperm. simpl. repeat (split; [done|]).
    destruct (populate_classified hw.1 hw.2 (length b) b (seq 0 (length b))
                [] [] sm lg Hv) as [Hsm Hlg]; try done.
    destruct Hside as [Hge|Hlt].
    + left. destruct sm as [|i sm]; [done|]. exfalso.
      apply Forall_cons in Hsm as [(x & Hx & Hlt) _].
      pose proof (Forall_lookup_1 _ _ _ _ Hge Hx) as Hle. simpl in Hle. lra.
    + right. destruct lg as [|i lg]; [done|]. exfalso.
      apply Forall_cons in Hlg as [(x & Hx & Hge) _].
      pose proof (Forall_lookup_1 _ _ _ _ Hlt Hx) as Hlt'. simpl in Hlt'. lra.
  - intros st less sm more lg st' _ (_ & _ & _ & _ & [E|E]) Es El _;
      congruence.
  - eexists _, _. split; [exact Hrun|]. simpl. split; [|split; [done|]].
    + apply list_eq. intros i.
      destruct (decide (i < length b)) as [Hi|Hi].
      * destruct (Hfinal i) as [Hone _]. rewrite Hone.
        { symmetry. by apply lookup_replicate_2. }
        rewrite Hperm. apply elem_of_seq. lia.
      * rewrite !lookup_ge_None_2; [done | rewrite length_replicate; lia | lia].
    + rewrite Hst. unfold hw, working_view. destruct copy; simpl; [|done].
      rewrite lookup_insert_ne; [done|]. intros E.
      by apply (fresh_not_held h w b Hb).
Qed.

(** The witness of [one_sided_weights_give_the_uniform_table]: the weights
    1, 2, 3, 4, each at least 1/4, built in place. *)
Lemma one_sided_weights_give_the_uniform_table_witness :
  ∃ h' s,
    init 64 (one_buffer [1; 2; 3; 4]%Q) caller false (Some 1%Z) 0 = Ok (h', s) ∧
    proba s = [1; 1; 1; 1]%Q ∧ alias s = [0; 0; 0; 0] ∧
    h' !! caller = Some [1; 2; 3; 4]%Q.
Proof.
  destruct (one_sided_weights_give_the_uniform_table 64
              (one_buffer [1; 2; 3; 4]%Q) caller [1; 2; 3; 4]%Q false
              (Some 1%Z) 0%Z) as (h' & s & Hrun & Hpr & Hal & Hkeep).
  - reflexivity.
  - simpl. lia.
  - discriminate.
  - unfold INT_MAX. simpl. lia.
  - left. repeat constructor; unfold Qle; simpl; lia.
  - exists h', s. split; [exact Hrun|]. split; [exact Hpr|].
    split; [exact Hal | exact Hkeep].
Defined.

(** ** The end of the pairing loop *)

(** X11: the note of [__init__] on the exact algorithm.  From non-negative
    weights that add up to 1, under exact arithmetic, the pairing loop ends
    with [small] exhausted and [large] not empty, and every index left in
    [large] weighs exactly [1/n] by then. *)
Theorem small_is_exhausted_first (h : store) w b :
  h !! w = Some b → 1 ≤ length b → nonnegative b → (total b == 1)%Q →
  ∃ sm lg st b',
    populate h w (average (length b)) (seq 0 (length b)) [] [] = Ok (sm, lg) ∧
    pair_loop (length b) w (length b) (average (length b))
      (TState h (replicate (length b) 0) (replicate (length b) 0%Q) sm lg)
      = Ok st ∧
    small st = [] ∧ large st ≠ [] ∧
    t_store st !! w = Some b' ∧
    ∀ k, k ∈ large st → ∃ x, b' !! k = Some x ∧ (x == average (length b))%Q.
Proof.
  intros Hb Hpos Hnn Htot.
  set (sz := length b) in *.
  destruct (populate_run h w (average sz) b (seq 0 sz) [] [] Hb)
    as (sm & lg & Hpop & Hperm).
  { apply Forall_forall. intros i Hi. apply elem_of_seq in Hi. lia. }
  simpl in Hperm.
  set (st0 := TState h (replicate sz 0) (replicate sz 0%Q) sm lg).
  assert (Hwf0 : well_formed w sz st0).
  { unfold well_formed, st0; simpl. rewrite !length_replicate.
    split; [by exists b|]. split; [done|]. split; [done|].
    assert (Hall : Forall (λ i, i < sz) (sm ++ lg)).
    { rewrite Hperm. apply Forall_forall. intros i Hi.
      apply elem_of_seq in Hi. lia. }
    by apply Forall_app in Hall. }
  destruct (pair_loop_invariant w sz (average sz)
              (λ st, well_formed w sz st ∧ classified w sz st ∧
                     balanced w sz st ∧
                     1 ≤ length (small st) + length (large st)))
    with (fuel := sz) (st := st0)
    as (st & Hloop & (Hwf & Hcl & Hbal & Hne) & Hexit).
  - intros st1 less sm1 more lg1 (Hwf1 & Hcl1 & Hbal1 & _) Es El.
    destruct (pair_body_wf w sz less more sm1 lg1 st1 Hwf1 Es El)
      as (b1 & wl & wm & st' & _ & _ & _ & _ & Hrun & Hwf' & Hlen).
    exists st'. split; [done|]. split; [|done].
    split; [done|].
    split; [by apply (pair_body_classified w sz st1 less sm1 more lg1 st')|].
    split; [by apply (pair_body_balanced w sz st1 less sm1 more lg1 st')|]. lia.
  - split; [done|]. unfold st0, sz.
    split; [by apply initial_classified|].
    split; [by apply initial_balanced|].
    simpl. fold sz. rewrite <- length_app, Hperm, length_seq. done.
  - unfold st0. simpl. rewrite <- length_app, Hperm, length_seq. done.
  - pose proof Hwf as ([b' [Hb' Hlb']] & _).
    pose proof (remaining_weigh_average w sz st b' Hcl Hbal Hb' Hexit) as Havg.
    destruct Hcl as (b'' & Hb'' & _ & Hsm & _).
    rewrite Hb' in Hb''. injection Hb'' as <-.
    assert (Hsmall : small st = []).
    { destruct (small st) as [|i l] eqn:Es; [done|]. exfalso.
      apply Forall_cons in Hsm as [(x & Hx & Hlt) _].
      specialize (Havg i ltac:(by left)). rewrite Hx in Havg. simpl in Havg. lra. }
    exists sm, lg, st, b'. repeat (split; [done|]).
    split; [|split; [done|]].
    + intros E. rewrite Hsmall, E in Hne. simpl in Hne. lia.
    + intros k Hk.
      destruct Hwf as (_ & _ & _ & _ & Hlg).
      rewrite Forall_forall in Hlg.
      destruct (lookup_lt_is_Some_2 b' k) as [x Hx].
      { rewrite Hlb'. by apply Hlg. }
      exists x. split; [done|].
      specialize (Havg k). rewrite Hsmall, Hx in Havg. by apply Havg.
Qed.

(** The witness of [small_is_exhausted_first]: from the weights 1/10, 2/10,
    3/10, 4/10 the loop ends with the index 3 alone, in [large]. *)
Lemma small_is_exhausted_first_witness :
  ∃ sm lg st,
    pair_loop 4 caller 4 (average 4)
      (TState (one_buffer [1 # 10; 2 # 10; 3 # 10; 4 # 10]%Q)
              (replicate 4 0) (replicate 4 0%Q) sm lg) = Ok st ∧
    small st = [] ∧ large st ≠ [].
Proof.
  destruct (small_is_exhausted_first
              (one_buffer [1 # 10; 2 # 10; 3 # 10; 4 # 10]%Q) caller
              [1 # 10; 2 # 10; 3 # 10; 4 # 10]%Q)
    as (sm & lg & st & b' & _ & Hloop & Hsm & Hlg & _).
  - reflexivity.
  - simpl. lia.
  - repeat constructor; unfold Qle; simpl; lia.
  - reflexivity.
  - exists sm, lg, st. split; [exact Hloop|]. split; [exact Hsm | exact Hlg].
Defined.

(** ** Columns that were paired and columns that were not *)

Lemma below_average_scaled_strictly sz x :
  0 < sz → (x < average sz)%Q → (x * inject_Z (Z.of_nat sz) < 1)%Q.
Proof.
  intros H Hx. pose proof (size_positive sz H) as Hpos.
  rewrite <- (average_scale sz H). by apply Qmult_lt_compat_r.
Qed.



(** ** Indices without weight *)

Lemma Qdiv_pos a c : (0 < a)%Q → (0 < c)%Q → (0 < a / c)%Q.
Proof.
  intros Ha Hc. unfold Qdiv. apply Qmult_lt_0_compat; [done|].
  by apply Qinv_lt_0_compat.
Qed.

Lemma Qdiv_nonneg a c : (0 <= a)%Q → (0 < c)%Q → (0 <= a / c)%Q.
Proof.
  intros Ha Hc. unfold Qdiv. apply Qmult_le_0_compat; [done|].
  apply Qlt_le_weak. by apply Qinv_lt_0_compat.
Qed.

Lemma tails_mass_nonneg nq k al : ∀ pr,
  (0 < nq)%Q → unit_interval pr → (0 <= tails_mass nq al pr k)%Q.
Proof.
  induction al as [|a al IH]; intros [|p pr] Hnq Hpr; simpl; try apply Qle_refl.
  apply Forall_cons in Hpr as [[_ Hp] Hpr].
  pose proof (IH pr Hnq Hpr) as Hrest.
  destruct (decide (a = k)); [|done].
  assert (0 <= (1 - p) / nq)%Q by (apply Qdiv_nonneg; [lra | done]). lra.
Qed.

(** What a column sends to its alias is part of the alias's mass. *)
Lemma tails_mass_lower nq k al : ∀ pr j p,
  (0 < nq)%Q → unit_interval pr →
  al !! j = Some k → pr !! j = Some p →
  ((1 - p) / nq <= tails_mass nq al pr k)%Q.
Proof.
  induction al as [|a al IH]; intros [|q pr] j p Hnq Hpr Ha Hp; try done.
  apply Forall_cons in Hpr as [[_ Hq] Hpr]. simpl.
  destruct j as [|j]; simpl in Ha, Hp.
  - injection Ha as ->. injection Hp as ->. rewrite decide_True by done.
    pose proof (tails_mass_nonneg nq k al pr Hnq Hpr). lra.
  - pose proof (IH pr j p Hnq Hpr Ha Hp) as Hrest.
    destruct (decide (a = k)); [|done].
    assert (0 <= (1 - q) / nq)%Q by (apply Qdiv_nonneg; [lra | done]). lra.
Qed.

(** The tables built from non-negative weights that add up to 1. *)
Lemma normalised_tables bits (h : store) w b copy seed entropy :
  h !! w = Some b → seed_fits bits seed → 1 ≤ length b →
  (Z.of_nat (length b) <= INT_MAX)%Z →
  nonnegative b → (total b == 1)%Q →
  ∃ h' s,
    init bits h w copy seed entropy = Ok (h', s) ∧
    n s = Z.of_nat (length b) ∧
    unit_interval (proba s) ∧
    (∀ k x, b !! k = Some x → (draw_probability s k == x)%Q) ∧
    ∀ i, i < length b →
      (∃ a p, alias s !! i = Some a ∧ proba s !! i = Some p ∧ (p < 1)%Q) ∨
      (proba s !! i = Some 1%Q ∧ alias s !! i = Some 0).
Proof.
  intros Hb Hseed Hpos Hfit Hnn Htot.
  pose proof (nonempty_copy b copy Hpos) as Hcopy.
  set (hw := working_view h w b copy).
  destruct (init_invariant bits h w b copy seed entropy
              (λ st, classified hw.2 (length b) st ∧
                     balanced hw.2 (length b) st ∧
                     mass_conserved hw.2 (length b) b st ∧
                     tables_in_range (length b) st ∧
                     ∀ i, i < length b →
                       (i ∈ small st ++ large st → t_alias st !! i = Some 0) ∧
                       (i ∉ small st ++ large st →
                        ∃ a p, t_alias st !! i = Some a ∧
                               t_proba st !! i = Some p ∧ (p < 1)%Q)))
    as (st & final & Hwf & (Hcl & Hbal & Hmass & [Hpr _] & Hcols) & Hexit
        & Hlen & Hfinal & Hrun); try done.
  - intros sm lg Hpop Hperm.
    pose proof (working_view_lookup h w b copy Hb) as Hv.
    split; [by apply initial_classified|].
    split; [apply initial_balanced; try done; lia|].
    split; [by apply initial_mass_conserved|].
    split; [apply initial_tables_in_range|].
    intros i Hi. simpl. split.
    + intros _. by apply lookup_replicate_2.
    + intros Hn. exfalso. apply Hn. rewrite Hperm. apply elem_of_seq. lia.
  - intros st less sm more lg st' Hwf (Hcl & Hbal & Hmass & Htr & Hcols) Es El
      Hbody.
    split; [by apply (pair_body_classified hw.2 _ st less sm more lg st')|].
    split; [by apply (pair_body_balanced hw.2 _ st less sm more lg st')|].
    split; [by apply (pair_body_mass_conserved hw.2 _ b st less sm more lg st')|].
    split; [by apply (pair_body_tables_in_range hw.2 _ st less sm more lg st')|].
    destruct (pair_body_step hw.2 (length b) st less sm more lg st'
                Hwf Hcl Es El Hbody)
      as (b1 & wless & wmore & _ & _ & _ & _ & Hlt & _ & Hless_lt & Hmore_lt
          & Hla & Hlp & Hne & Hl & Hm & _ & _ & Hal' & Hpr' & Hperm).
    assert (Hact' : ∀ j, j ∈ small st' ++ large st' ↔ j = more ∨ j ∈ sm ++ lg).
    { intros j. rewrite Hperm. apply elem_of_cons. }
    assert (Hact : ∀ j, j ∈ small st ++ large st
                        ↔ j = less ∨ j = more ∨ j ∈ sm ++ lg).
    { intros j. rewrite Es, El. simpl. rewrite elem_of_cons.
      rewrite <- (Permutation_middle sm lg more). by rewrite elem_of_cons. }
    intros i Hi. rewrite Hal', Hpr'. destruct (decide (i = less)) as [->|Hil].
    + split.
      * intros Hin. exfalso. apply Hact' in Hin as [?|?]; done.
      * intros _. exists more, (wless * inject_Z (Z.of_nat (length b)))%Q.
        rewrite !list_lookup_insert_eq by lia. split; [done|]. split; [done|].
        apply below_average_scaled_strictly; [lia | done].
    + rewrite !list_lookup_insert_ne by done.
      destruct (Hcols i Hi) as [Hin Hout]. split.
      * intros H'. apply Hin. rewrite Hact. rewrite Hact' in H'. tauto.
      * intros H'. apply Hout. rewrite Hact. rewrite Hact' in H'.
        intros [?|?]; [done | tauto].
  - eexists _, _. split; [exact Hrun|]. simpl. split; [done|].
    split; [|split].
    + apply Forall_lookup. intros i x Hx.
      destruct (decide (i ∈ small st ++ large st)) as [Hin|Hnin].
      * destruct (Hfinal i) as [Hone _]. rewrite Hone in Hx by done.
        injection Hx as <-. split; lra.
      * destruct (Hfinal i) as [_ Hsame]. rewrite Hsame in Hx by done.
        by apply (Forall_lookup_1 _ _ _ _ Hpr Hx).
    + intros k x Hk. pose proof Hwf as ([b' [Hb' _]] & _).
      unfold draw_probability. simpl.
      pose proof (final_mass hw.2 (length b) st b' final k) as Hfm.
      unfold draw_probability in Hfm. simpl in Hfm. rewrite Hfm; try done.
      * by apply Hmass.
      * by apply (remaining_weigh_average hw.2 (length b) st b').
    + intros i Hi. destruct (Hcols i Hi) as [Hin Hout].
      destruct (decide (i ∈ small st ++ large st)) as [H'|H'].
      * right. destruct (Hfinal i) as [Hone _].
        split; [by apply Hone | by apply Hin].
      * left. destruct (Hout H') as (a & p & Ha & Hp & Hlt).
        exists a, p. destruct (Hfinal i) as [_ Hsame].
        rewrite (Hsame H'). done.
Qed.

(** X13: a Sampler built from non-negative weights that add up to 1 returns
    no index of weight 0, the index 0 apart: in every state of its engine,
    what [sample_1] returns is 0 or an index whose weight is positive.  (The
    index 0 is the alias that [np.zeros] leaves in the columns of
    probability 1.)  The seed, if any, fits the type it is converted to,
    [sbits] wide. *)
Theorem weightless_indices_are_not_sampled bits sbits (h : store) w b copy seed
    entropy :
  h !! w = Some b → seed_fits sbits seed → 1 ≤ length b →
  (Z.of_nat (length b) <= INT_MAX)%Z →
  nonnegative b → (total b == 1)%Q → (32 <= bits)%Z →
  ∃ h' s,
    init sbits h w copy seed entropy = Ok (h', s) ∧
    ∀ g r s',
      sample_1 bits (with_generator s g) = Ok (r, s') →
      r = 0%Z ∨ ∃ x, b !! Z.to_nat r = Some x ∧ (0 < x)%Q.
Proof.
  intros Hb Hseed Hpos Hfit Hnn Htot Hbits.
  destruct (normalised_tables sbits h w b copy seed entropy Hb Hseed Hpos Hfit
              Hnn Htot)
    as (h' & s & Hrun & Hn & Hunit & Hmass & Hcols).
  exists h', s. split; [done|]. intros g r s' Hs.
  destruct (init_table_ok sbits h w b copy seed entropy h' s Hb Hpos Hrun)
    as (Hrange & Hmx & Hlp & Hla & Hal).
  assert (Hnq : (0 < inject_Z (n s))%Q).
  { change 0%Q with (inject_Z 0). rewrite <- Zlt_Qlt. lia. }
  assert (Hweight : ∀ k, k < length b → (0 < draw_probability s k)%Q →
            ∃ x, b !! k = Some x ∧ (0 < x)%Q).
  { intros k Hk Hdp. destruct (lookup_lt_is_Some_2 b k Hk) as [x Hx].
    exists x. split; [done|]. by rewrite <- (Hmass k x Hx). }
  assert (Hhead : ∀ k, (0 <= default 0 (proba s !! k) / inject_Z (n s))%Q).
  { intros k. apply Qdiv_nonneg; [|done].
    destruct (proba s !! k) as [p|] eqn:Hp; simpl; [|lra].
    by destruct (Forall_lookup_1 _ _ _ _ Hunit Hp). }
  unfold sample_1, fair_die, coin_toss, draw in Hs. simpl in Hs.
  set (col := die_of bits (maxi s) (minstd_rand.next g) (n s)) in *.
  assert (Hcol : (0 <= col < n s)%Z).
  { unfold col. rewrite Hmx. apply die_of_range; try done. apply next_range. }
  unfold read_int, read in Hs. destruct (Z.ltb_spec col 0); [lia|].
  destruct (proba s !! Z.to_nat col) as [p|] eqn:Hp; simpl in Hs; [|done].
  destruct (coin_of _ _ p) eqn:Hcoin.
  - injection Hs as <- _. right. apply Hweight; [lia|].
    apply coin_of_heads_positive in Hcoin;
      [| rewrite Hmx; done | apply next_range].
    unfold draw_probability. rewrite Hp. simpl.
    pose proof (tails_mass_nonneg (inject_Z (n s)) (Z.to_nat col) (alias s)
                  (proba s) Hnq Hunit).
    pose proof (Qdiv_pos p (inject_Z (n s)) Hcoin Hnq). lra.
  - destruct (alias s !! Z.to_nat col) as [a|] eqn:Ha; simpl in Hs; [|done].
    injection Hs as <- _.
    destruct (Hcols (Z.to_nat col)) as [(a' & p' & Ha' & Hp' & Hlt)|[_ Ha']];
      [lia | |].
    + rewrite Ha in Ha'. injection Ha' as <-.
      rewrite Hp in Hp'. injection Hp' as <-.
      right. rewrite Nat2Z.id. apply Hweight.
      { pose proof (Forall_lookup_1 _ _ _ _ Hal Ha) as Hlta. simpl in Hlta. lia. }
      unfold draw_probability.
      pose proof (tails_mass_lower (inject_Z (n s)) a (alias s) (proba s)
                    (Z.to_nat col) p Hnq Hunit Ha Hp) as Hlow.
      assert (0 < (1 - p) / inject_Z (n s))%Q by (apply Qdiv_pos; [lra | done]).
      pose proof (Hhead a). lra.
    + rewrite Ha in Ha'. injection Ha' as ->. by left.
Qed.

(** The witness of [weightless_indices_are_not_sampled]: the weights
    1/2, 0, 1/2. *)
Lemma weightless_indices_are_not_sampled_witness :
  ∃ h' s,
    init 64 (one_buffer [1 # 2; 0; 1 # 2]%Q) caller true (Some 1%Z) 0
      = Ok (h', s) ∧
    ∀ g r s',
      sample_1 64 (with_generator s g) = Ok (r, s') →
      r = 0%Z ∨ ∃ x, [1 # 2; 0; 1 # 2]%Q !! Z.to_nat r = Some x ∧ (0 < x)%Q.
Proof.
  apply (weightless_indices_are_not_sampled 64 64
           (one_buffer [1 # 2; 0; 1 # 2]%Q) caller [1 # 2; 0; 1 # 2]%Q true
           (Some 1%Z) 0%Z).
  - reflexivity.
  - simpl. lia.
  - simpl. lia.
  - unfold INT_MAX. simpl. lia.
  - repeat constructor; unfold Qle; simpl; lia.
  - reflexivity.
  - lia.
Defined.

(** ** The worklists *)

Lemma populate_filters (h : store) w avg b idx : ∀ sm lg,
  h !! w = Some b → Forall (λ i, i < length b) idx →
  populate h w avg idx sm lg
  = Ok (sm ++ filter (below avg b) idx,
        lg ++ filter (λ i, ¬ below avg b i) idx).
Proof.
  induction idx as [|i idx IH]; intros sm lg Hb Hidx.
  - simpl. by rewrite !app_nil_r.
  - apply Forall_cons in Hidx as [Hi Hidx].
    destruct (lookup_lt_is_Some_2 b i Hi) as [x Hx].
    cbn [populate]. rewrite (load_lookup _ _ _ _ _ Hb Hx). simpl.
    destruct (Qle_bool avg x) eqn:Hc.
    + rewrite IH by done. unfold push_front.
      rewrite filter_cons_False, filter_cons_True, <- app_assoc; [done| |];
        unfold below; rewrite Hx; simpl; rewrite Hc; [done | auto].
    + rewrite IH by done. unfold push_front.
      rewrite filter_cons_True, filter_cons_False, <- app_assoc; [done| |];
        unfold below; rewrite Hx; simpl; rewrite Hc; [auto | done].
Qed.

(** X15: the two worklists are queues in the order of the indices.  After
    the first loop of [__init__], [small] holds the indices whose weight is
    below [avg] and [large] the others, each in increasing order from the
    back, the end that the pairing loop pops: the first round pairs the
    lowest index of each. *)
Theorem worklists_are_in_index_order (h : store) w b :
  h !! w = Some b →
  populate h w (average (length b)) (seq 0 (length b)) [] []
  = Ok (filter (below (average (length b)) b) (seq 0 (length b)),
        filter (λ i, ¬ below (average (length b)) b i) (seq 0 (length b))).
Proof.
  intros Hb. rewrite (populate_filters h w _ b); [done | done |].
  apply Forall_forall. intros i Hi. apply elem_of_seq in Hi. lia.
Qed.

(** The witness of [worklists_are_in_index_order]: the weights 4/10, 1/10,
    3/10, 2/10. *)
Lemma worklists_are_in_index_order_witness :
  populate (one_buffer [4 # 10; 1 # 10; 3 # 10; 2 # 10]%Q) caller (average 4)
    (seq 0 4) [] [] = Ok ([1; 3], [0; 2]).
Proof.
  exact (worklists_are_in_index_order
           (one_buffer [4 # 10; 1 # 10; 3 # 10; 2 # 10]%Q) caller
           [4 # 10; 1 # 10; 3 # 10; 2 # 10]%Q eq_refl).
Defined.

(** ** The length of the pairing loop *)

Lemma pair_loop_rounds w sz fuel : ∀ st,
  well_formed w sz st →
  length (small st) + length (large st) ≤ S fuel →
  ∃ st', pair_loop fuel w sz (average sz) st = Ok st'.
Proof.
  induction fuel as [|fuel IH]; intros st Hwf Hlen.
  - destruct (small st) as [|less sm] eqn:Es; [exists st; cbn; by rewrite Es|].
    destruct (large st) as [|more lg] eqn:El;
      [exists st; cbn; by rewrite Es, El|].
    simpl in Hlen. lia.
  - destruct (small st) as [|less sm] eqn:Es; [exists st; cbn; by rewrite Es|].
    destruct (large st) as [|more lg] eqn:El;
      [exists st; cbn; by rewrite Es, El|].
    destruct (pair_body_wf w sz less more sm lg st Hwf Es El)
      as (b1 & wl & wm & st1 & _ & _ & _ & _ & Hrun & Hwf1 & Hlen1).
    destruct (IH st1 Hwf1) as [st' Hloop]; [simpl in Hlen; lia|].
    exists st'. cbn. rewrite Es, El, Hrun. simpl. done.
Qed.

Lemma pair_loop_more_fuel w sz avg fuel : ∀ st st',
  pair_loop fuel w sz avg st = Ok st' →
  pair_loop (S fuel) w sz avg st = Ok st'.
Proof.
  induction fuel as [|fuel IH]; intros st st' H.
  - cbn in *. destruct (small st); [done|]. destruct (large st); done.
  - cbn in H. cbn [pair_loop].
    destruct (small st) as [|less sm]; [done|].
    destruct (large st) as [|more lg]; [done|].
    destruct (pair_body w sz avg less more sm lg st) as [st1| | |]; simpl in *;
      try done.
    by apply IH.
Qed.

Lemma pair_loop_extra_fuel w sz avg fuel extra st st' :
  pair_loop fuel w sz avg st = Ok st' →
  pair_loop (extra + fuel) w sz avg st = Ok st'.
Proof.
  intros H. induction extra as [|extra IH]; [done|].
  change (S extra + fuel) with (S (extra + fuel)). by apply pair_loop_more_fuel.
Qed.

(** X16: on [n >= 1] weights the pairing loop ends within [n - 1] rounds,
    whatever the weights are; allowing it more rounds changes nothing. *)
Theorem pairing_ends_within_n_rounds (h : store) w b sm lg extra :
  h !! w = Some b → 1 ≤ length b →
  populate h w (average (length b)) (seq 0 (length b)) [] [] = Ok (sm, lg) →
  ∃ st,
    pair_loop (length b - 1 + extra) w (length b) (average (length b))
      (TState h (replicate (length b) 0) (replicate (length b) 0%Q) sm lg)
    = Ok st.
Proof.
  intros Hb Hpos Hpop.
  destruct (populate_run h w (average (length b)) b (seq 0 (length b)) [] [] Hb)
    as (sm' & lg' & Hpop' & Hperm).
  { apply Forall_forall. intros i Hi. apply elem_of_seq in Hi. lia. }
  rewrite Hpop in Hpop'. injection Hpop' as <- <-. simpl in Hperm.
  set (st0 := TState h (replicate (length b) 0) (replicate (length b) 0%Q) sm lg).
  assert (Hwf0 : well_formed w (length b) st0).
  { unfold well_formed, st0; simpl. rewrite !length_replicate.
    split; [by exists b|]. split; [done|]. split; [done|].
    assert (Hall : Forall (λ i, i < length b) (sm ++ lg)).
    { rewrite Hperm. apply Forall_forall. intros i Hi.
      apply elem_of_seq in Hi. lia. }
    by apply Forall_app in Hall. }
  destruct (pair_loop_rounds w (length b) (length b - 1) st0 Hwf0) as [st Hloop].
  { unfold st0. simpl. rewrite <- length_app, Hperm, length_seq. lia. }
  exists st. rewrite Nat.add_comm. by apply pair_loop_extra_fuel.
Qed.

(** The witness of [pairing_ends_within_n_rounds]: four weights, three
    rounds. *)
Lemma pairing_ends_within_n_rounds_witness :
  ∃ st,
    pair_loop 3 caller 4 (average 4)
      (TState (one_buffer [1 # 10; 2 # 10; 3 # 10; 4 # 10]%Q)
              (replicate 4 0) (replicate 4 0%Q) [0; 1] [2; 3]) = Ok st.
Proof.
  apply (pairing_ends_within_n_rounds
           (one_buffer [1 # 10; 2 # 10; 3 # 10; 4 # 10]%Q) caller
           [1 # 10; 2 # 10; 3 # 10; 4 # 10]%Q [0; 1] [2; 3] 0).
  - reflexivity.
  - simpl. lia.
  - vm_compute. reflexivity.
Defined.
